(** * ShrineUpdater: the shrine fetch / enrichment / cache pipeline

    A shallow embedding of [dbd-shrine-api/index.js] (the standalone script
    [scripts/update-shrine.js] repeats the same functions verbatim).

    - JSON data is the inductive type [value]; objects are association
      lists in property order, the [Map] built by [mapPerksWithCatalog] is
      a [gmap].
    - A JavaScript function that can throw returns a [result].
    - Code that talks to the network threads a [state] holding the
      module variables [cache] and [lastFetch], the outside world and the
      list of requests issued so far.

    Modelling limits: numbers are the integers (the program only tests a
    number for truthiness and stringifies it; times are integral
    milliseconds), strings are ASCII (this matters for [toLowerCase]
    and [trim] only), properties are kept in insertion order (JavaScript moves
    array-index names to the front), console output is not recorded, and
    a call of [loadShrine] runs to its end without another call
    interleaving at its [await]s. *)

From stdpp Require Import gmap strings list pretty.
From Stdlib Require Import ZArith Ascii.

Local Open Scope Z_scope.
Set Warnings "-register-all".

(** ** JavaScript values as produced by [JSON.parse] *)

Inductive value : Type :=
  | VUndef
  | VNull
  | VBool (b : bool)
  | VNum (n : Z)
  | VStr (s : string)
  | VArr (elements : list value)
  | VObj (fields : list (string * value)).

Inductive exn : Type :=
  | Error (message : string)
  | TypeError (what : string).

Inductive result (A : Type) : Type :=
  | Ok (a : A)
  | Throw (e : exn).
Arguments Ok {A} a.
Arguments Throw {A} e.

Module Js.

Definition bind {A B} (r : result A) (k : A → result B) : result B :=
  match r with
  | Ok a => k a
  | Throw e => Throw e
  end.

Notation "'let*' x ':=' r 'in' k" := (bind r (fun x => k))
  (at level 10, x pattern, r at level 200, k at level 200, only parsing).

(** [Array.prototype.map] with a callback that may throw: the first
    exception aborts the traversal. *)
Fixpoint mapM {A B} (f : A → result B) (l : list A) : result (list B) :=
  match l with
  | [] => Ok []
  | x :: rest =>
      let* y := f x in
      let* ys := mapM f rest in
      Ok (y :: ys)
  end.

(** [Boolean(v)] *)
Definition truthy (v : value) : bool :=
  match v with
  | VUndef | VNull => false
  | VBool b => b
  | VNum n => negb (n =? 0)
  | VStr s => negb (String.eqb s "")
  | VArr _ | VObj _ => true
  end.

(** [a || b] on operands that are already evaluated (every right operand
    in the program is a plain property read or a literal). *)
Definition or (a b : value) : value := if truthy a then a else b.
Infix "|||" := or (at level 50, left associativity).

Fixpoint assoc (k : string) (fields : list (string * value)) : option value :=
  match fields with
  | [] => None
  | (k', v) :: rest => if String.eqb k k' then Some v else assoc k rest
  end.

(** Defining a property: an existing one keeps its place, a new one goes
    last. *)
Fixpoint set (k : string) (v : value) (fields : list (string * value))
  : list (string * value) :=
  match fields with
  | [] => [(k, v)]
  | (k', v') :: rest =>
      if String.eqb k k' then (k, v) :: rest else (k', v') :: set k v rest
  end.

(** [v.k] for the property names the program reads ([id], [perkId],
    [name], [perkName], [displayName], [description], [role],
    [roleCategory], [character], [owner], [survivor], [killer], [icon],
    [iconUrl], [iconPath], [image], [perkImage], [perkIcon], [perks],
    [data]): none of them is inherited from a built-in prototype, so only
    own properties of objects answer. Reading from [null] or [undefined]
    throws. *)
Definition get (v : value) (k : string) : result value :=
  match v with
  | VUndef | VNull => Throw (TypeError ("cannot read property " +:+ k))
  | VObj fields => Ok (default VUndef (assoc k fields))
  | VBool _ | VNum _ | VStr _ | VArr _ => Ok VUndef
  end.

(** [v?.k] *)
Definition get_opt (v : value) (k : string) : value :=
  match v with
  | VObj fields => default VUndef (assoc k fields)
  | _ => VUndef
  end.

Fixpoint chars (i : nat) (s : string) : list (string * value) :=
  match s with
  | EmptyString => []
  | String c rest => (pretty i, VStr (String c EmptyString)) :: chars (S i) rest
  end.

Fixpoint indexed (i : nat) (l : list value) : list (string * value) :=
  match l with
  | [] => []
  | x :: rest => (pretty i, x) :: indexed (S i) rest
  end.

(** The own enumerable properties copied by [{...v}]. *)
Definition spread (v : value) : list (string * value) :=
  match v with
  | VObj fields => fields
  | VArr l => indexed 0 l
  | VStr s => chars 0 s
  | VUndef | VNull | VBool _ | VNum _ => []
  end.

Definition isArray (v : value) : bool :=
  match v with VArr _ => true | _ => false end.

(** [typeof v === "object"] *)
Definition typeof_object (v : value) : bool :=
  match v with VNull | VArr _ | VObj _ => true | _ => false end.

Definition lower (c : ascii) : ascii :=
  let n := nat_of_ascii c in
  if ((65 <=? n) && (n <=? 90))%nat then ascii_of_nat (n + 32) else c.

Fixpoint toLowerCase (s : string) : string :=
  match s with
  | EmptyString => EmptyString
  | String c rest => String (lower c) (toLowerCase rest)
  end.

(** [s.startsWith(p)] *)
Definition startsWith (s p : string) : bool := String.prefix p s.

(** [l.join(sep)] on strings *)
Definition join (sep : string) (l : list string) : string := String.concat sep l.

(** [v.toString()] for a value that is not [null] or [undefined]; the same
    conversion is what [Array.prototype.join] applies to the elements of an
    array, where [null] and [undefined] become the empty string. An object
    parsed from JSON whose own [toString] property shadows the inherited
    method cannot be converted. *)
Fixpoint toString (v : value) : result string :=
  match v with
  | VUndef => Ok "undefined"
  | VNull => Ok "null"
  | VBool b => Ok (if b then "true" else "false")
  | VNum n => Ok (pretty n)
  | VStr s => Ok s
  | VArr l =>
      (fix elements (l : list value) : result string :=
         match l with
         | [] => Ok ""
         | x :: rest =>
             let* s := match x with
                       | VUndef | VNull => Ok ""
                       | _ => toString x
                       end in
             match rest with
             | [] => Ok s
             | _ :: _ => let* t := elements rest in Ok (s +:+ "," +:+ t)
             end
         end) l
  | VObj fields =>
      match assoc "toString" fields with
      | Some _ => Throw (TypeError "toString is not a function")
      | None => Ok "[object Object]"
      end
  end.

End Js.
Import Js.

(** ** Configuration constants *)

Definition DEFAULT_SOURCES : list string :=
  [ "https://dbd.tricky.lol/api/shrine";
    "https://dbd-api.herokuapp.com/shrineofsecrets?pretty=false&branch=live" ].

Definition PERK_CATALOG_SOURCES : list string :=
  [ "https://dbd.tricky.lol/api/perks" ].

(** The own properties of the object literal [PERK_OVERRIDES], each with
    the [name] of the record it holds. *)
Definition PERK_OVERRIDES : list (string * string) :=
  [ ("k28p02", "Darkness Revealed");
    ("k32p02", "Forced Hesitation") ].

(** [PERK_OVERRIDES] is a plain object literal, so an index expression
    [PERK_OVERRIDES[key]] that misses the own properties answers from
    [Object.prototype]. Its function-valued properties are listed here with
    the [name] of the function found ([constructor] is the function
    [Object]); the one remaining property, the accessor [__proto__], yields
    [Object.prototype] itself, which has no [name]. *)
Definition Object_prototype_functions : list (string * string) :=
  [ ("constructor", "Object");
    ("__defineGetter__", "__defineGetter__");
    ("__defineSetter__", "__defineSetter__");
    ("hasOwnProperty", "hasOwnProperty");
    ("__lookupGetter__", "__lookupGetter__");
    ("__lookupSetter__", "__lookupSetter__");
    ("isPrototypeOf", "isPrototypeOf");
    ("propertyIsEnumerable", "propertyIsEnumerable");
    ("toString", "toString");
    ("valueOf", "valueOf");
    ("toLocaleString", "toLocaleString") ].

Fixpoint lookup_name (k : string) (table : list (string * string)) : option string :=
  match table with
  | [] => None
  | (k', n) :: rest => if String.eqb k k' then Some n else lookup_name k rest
  end.

(** [(PERK_OVERRIDES[key] || {}).name] *)
Definition override_name (key : string) : value :=
  match lookup_name key PERK_OVERRIDES with
  | Some n => VStr n
  | None =>
      match lookup_name key Object_prototype_functions with
      | Some n => VStr n
      | None => VUndef
      end
  end.

Definition BASE_HOST : string := "https://dbd.tricky.lol".

(** [CACHE_TIME = 1000 * 60 * 60 * 24 * 7] milliseconds *)
Definition CACHE_TIME : Z := 1000 * 60 * 60 * 24 * 7.

(** ** Image extraction and normalization *)

Definition normalizeImageUrl (image : value) : result value :=
  if negb (truthy image) then Ok VNull
  else match image with
       | VStr s =>
           if startsWith s "http" then Ok image
           else Ok (VStr (BASE_HOST +:+ (if startsWith s "/" then "" else "/") +:+ s))
       | _ => Throw (TypeError "image.startsWith is not a function")
       end.

(** [candidates.find(Boolean)] *)
Definition find_truthy (l : list value) : value :=
  default VUndef (List.find truthy l).

Definition image_fields : list string :=
  [ "icon"; "iconUrl"; "iconPath"; "image"; "perkImage"; "perkIcon" ].

Definition extractImage (perk : value) : value :=
  if negb (truthy perk) || negb (typeof_object perk) then VNull
  else
    let candidates := map (get_opt perk) image_fields in
    find_truthy candidates ||| VNull.

(** The [images] record of one enriched perk. *)
Definition image_record (p : value) : result value :=
  let* name := get p "name" in
  let* perkName := get p "perkName" in
  let* displayName := get p "displayName" in
  let* id := get p "id" in
  let* image := get p "image" in
  Ok (VObj [ ("name", name ||| perkName ||| displayName ||| id ||| VNull);
             ("image", image ||| extractImage p ||| VNull) ]).

Definition with_image (perk : value) : value :=
  let image := extractImage perk in
  if truthy image then VObj (set "image" image (spread perk)) else perk.

Definition has_image (p : value) : bool := truthy (get_opt p "image").

(** The perks for which an image can be extracted. *)
Definition has_extractable_image (perk : value) : bool := truthy (extractImage perk).

Definition enrichPayload (payload : value) : result (list value * list value) :=
  let perks := match get_opt payload "perks" with
               | VArr l => l
               | _ => []
               end in
  let perksWithImages := map with_image perks in
  let* records := mapM image_record perksWithImages in
  Ok (perksWithImages, List.filter has_image records).

(** ** Merging the shrine perks with the catalog *)

(** [(v || "").toString().toLowerCase()] *)
Definition normalized_key (v : value) : result string :=
  let* s := toString (v ||| VStr "") in
  Ok (toLowerCase s).

(** One iteration of the loop that fills [byId]. *)
Definition index_entry (byId : gmap string value) (perk : value)
  : result (gmap string value) :=
  if negb (truthy perk) then Ok byId
  else
    let* id := get perk "id" in
    let* perkId := get perk "perkId" in
    let* name := get perk "name" in
    let* key := normalized_key (id ||| perkId ||| name) in
    if truthy (VStr key) then Ok (<[key := perk]> byId) else Ok byId.

Fixpoint index_catalog (byId : gmap string value) (catalog : list value)
  : result (gmap string value) :=
  match catalog with
  | [] => Ok byId
  | perk :: rest =>
      let* byId' := index_entry byId perk in
      index_catalog byId' rest
  end.

(** The callback of [shrinePerks.map]. *)
Definition merge_perk (byId : gmap string value) (perk : value) : result value :=
  let* id := get perk "id" in
  let* key := normalized_key id in
  let found := default VUndef (byId !! key) in
  let oname := override_name key in
  if negb (truthy found) && negb (truthy oname) then Ok perk
  else
    let* image := normalizeImageUrl (if truthy found then extractImage found else VNull) in
    let* pname := get perk "name" in
    let* pdescription := get perk "description" in
    let* pimage := get perk "image" in
    Ok (VObj
      (set "image" (image ||| pimage)
      (set "character" (get_opt found "character" ||| get_opt found "owner"
                        ||| get_opt found "survivor" ||| get_opt found "killer")
      (set "role" (get_opt found "role" ||| get_opt found "roleCategory")
      (set "description" (get_opt found "description" ||| pdescription)
      (set "name" (oname ||| get_opt found "name" ||| get_opt found "displayName"
                   ||| pname ||| VStr key)
      (spread perk))))))).

Definition mapPerksWithCatalog (shrinePerks : value) (catalog : list value)
  : result (list value) :=
  let* byId := index_catalog ∅ catalog in
  match shrinePerks with
  | VArr perks => mapM (merge_perk byId) perks
  | _ => Throw (TypeError "shrinePerks.map is not a function")
  end.

(** Inputs on which the merge does not throw: a primitive stringifies
    without calling anything on it, a shrine perk must be readable and have
    a primitive [id], and a catalog entry that is not skipped must have
    primitive key fields and an image that is a string or missing. *)
Definition primitive (v : value) : bool :=
  match v with VArr _ | VObj _ => false | _ => true end.

Definition wf_perk (perk : value) : bool :=
  match perk with
  | VUndef | VNull => false
  | _ => primitive (get_opt perk "id")
  end.

Definition text_image (entry : value) : bool :=
  match extractImage entry with VNull | VStr _ => true | _ => false end.

Definition wf_entry (entry : value) : bool :=
  negb (truthy entry)
  || (primitive (get_opt entry "id") && primitive (get_opt entry "perkId")
      && primitive (get_opt entry "name") && text_image entry).

(** The key under which the loop over the catalog files an entry. *)
Definition entry_key (entry : value) : result string :=
  let* id := get entry "id" in
  let* perkId := get entry "perkId" in
  let* name := get entry "name" in
  normalized_key (id ||| perkId ||| name).

(** ** The operator's source list *)

(** The ASCII characters [String.prototype.trim] removes. *)
Definition is_space (c : ascii) : bool :=
  let n := nat_of_ascii c in
  ((9 <=? n) && (n <=? 13) || (n =? 32))%nat.

Fixpoint trimStart (s : string) : string :=
  match s with
  | EmptyString => EmptyString
  | String c rest => if is_space c then trimStart rest else s
  end.

Fixpoint trimEnd (s : string) : string :=
  match s with
  | EmptyString => EmptyString
  | String c rest =>
      match trimEnd rest with
      | EmptyString => if is_space c then EmptyString else String c EmptyString
      | r => String c r
      end
  end.

(** [s.trim()] *)
Definition trim (s : string) : string := trimEnd (trimStart s).

(** [s.split(",")]: the pieces between the commas, at least one. *)
Fixpoint split_comma (s : string) : list string :=
  match s with
  | EmptyString => [EmptyString]
  | String c rest =>
      if Ascii.eqb c "," then EmptyString :: split_comma rest
      else match split_comma rest with
           | [] => [String c EmptyString]
           | piece :: pieces => String c piece :: pieces
           end
  end.

Definition nonempty (s : string) : bool := negb (String.eqb s "").

(** [(process.env.SHRINE_SOURCE || "").split(",").map((s) => s.trim()).filter(Boolean)],
    for a variable that is unset ([None]) or set to a string. *)
Definition parse_sources (SHRINE_SOURCE : option string) : list string :=
  List.filter nonempty (map trim (split_comma (default "" SHRINE_SOURCE))).

(** Shapes of strings the properties of [parse_sources] speak about. *)
Fixpoint has_comma (s : string) : bool :=
  match s with
  | EmptyString => false
  | String c rest => Ascii.eqb c "," || has_comma rest
  end.

Fixpoint all_space (s : string) : bool :=
  match s with
  | EmptyString => true
  | String c rest => is_space c && all_space rest
  end.

Fixpoint blank (s : string) : bool :=
  match s with
  | EmptyString => true
  | String c rest => (is_space c || Ascii.eqb c ",") && blank rest
  end.

(** The first of a perk's own icon references, if it has one. *)
Definition own_icon (perk : value) : value :=
  find_truthy [get_opt perk "icon"; get_opt perk "iconUrl"; get_opt perk "iconPath"].

Definition clean_source (s : string) : bool :=
  nonempty s && negb (has_comma s) && String.eqb (trim s) s.

(** ** Dates *)

(** [w] decimal digits of [n], zero padded. *)
Fixpoint digits (w : nat) (n : Z) : string :=
  match w with
  | O => ""
  | S w' => digits w' (n / 10) +:+ pretty (n mod 10)
  end.

(** Year, month and day of the proleptic Gregorian calendar for a day
    count relative to 1970-01-01. *)
Definition civil_from_days (days : Z) : Z * Z * Z :=
  let z := days + 719468 in
  let era := z / 146097 in
  let doe := z - era * 146097 in
  let yoe := (doe - doe / 1460 + doe / 36524 - doe / 146096) / 365 in
  let doy := doe - (365 * yoe + yoe / 4 - yoe / 100) in
  let mp := (5 * doy + 2) / 153 in
  let d := doy - (153 * mp + 2) / 5 + 1 in
  let m := if mp <? 10 then mp + 3 else mp - 9 in
  let y := yoe + era * 400 + (if m <=? 2 then 1 else 0) in
  (y, m, d).

(** [new Date(t).toISOString()] for a time [t] in milliseconds since the
    epoch, in the years 0000 to 9999. *)
Definition toISOString (t : Z) : string :=
  let '(y, m, d) := civil_from_days (t / 86400000) in
  let ms := t mod 86400000 in
  digits 4 y +:+ "-" +:+ digits 2 m +:+ "-" +:+ digits 2 d +:+ "T"
  +:+ digits 2 (ms / 3600000) +:+ ":" +:+ digits 2 (ms / 60000 mod 60) +:+ ":"
  +:+ digits 2 (ms / 1000 mod 60) +:+ "." +:+ digits 3 (ms mod 1000) +:+ "Z".

(** ** The network and the module state *)

(** What [response.json()] settles to. *)
Inductive body : Type :=
  | Json (payload : value)
  | BodyError (message : string).

(** What [await fetch(url)] settles to: a rejection carrying the error's
    [message], or a response with its status and body. *)
Inductive fetch_outcome : Type :=
  | Rejected (message : string)
  | Response (status : Z) (json : body).

(** [response.ok] *)
Definition ok (status : Z) : bool := (200 <=? status) && (status <? 300).

(** The text pushed on [errors] for an attempt that failed, [None] for an
    attempt that produced a payload. *)
Definition failure_reason (o : fetch_outcome) : option string :=
  match o with
  | Rejected message => Some message
  | Response status json =>
      if ok status then
        match json with
        | Json _ => None
        | BodyError message => Some message
        end
      else Some (pretty status)
  end.

(** The module variables [cache] and [lastFetch], the world outside the
    process, and the URLs requested so far. *)
Record state (W : Type) : Type := mkState {
  cache : value;
  lastFetch : Z;
  world : W;
  requests : list string;
}.
Arguments mkState {W} _ _ _ _.
Arguments cache {W} _.
Arguments lastFetch {W} _.
Arguments world {W} _.
Arguments requests {W} _.

(** [Object.entries(obj).map(([id, value]) => ({ id, ...value }))] *)
Definition fromObject (obj : value) : list value :=
  if typeof_object obj && truthy obj then
    map (fun '(id, v) =>
           VObj (fold_left (fun acc '(k, x) => set k x acc) (spread v) [("id", VStr id)]))
        (spread obj)
  else [].

(** The entry list [fetchPerkCatalog] makes of a catalog payload. *)
Definition catalog_list (payload : value) : list value :=
  match get_opt payload "data" with
  | VArr data => data
  | _ =>
      match payload with
      | VArr l => l
      | _ => fromObject payload
      end
  end.

Section Pipeline.

Context {W : Type}.

(** The outside world: what a request to a URL settles to and how the
    world moves on, and the clock read by [Date.now()] and [new Date()]. *)
Variable fetch : string → W → fetch_outcome * W.
Variable Date_now : W → Z.

(** The operator's list, parsed from the environment at start-up. *)
Variable SOURCES : list string.

Definition do_fetch (url : string) (st : state W) : fetch_outcome * state W :=
  let (o, w) := fetch url (world st) in
  (o, mkState (cache st) (lastFetch st) w (requests st ++ [url])).

(** The [for (const url of ...)] loop shared by [fetchFromSources] and
    [fetchPerkCatalog]: [finish] is what the loop returns for the first
    payload received, [label] starts the message of the final error. *)
Fixpoint try_sources {A} (label : string) (finish : string → value → A)
    (urls : list string) (errors : list string) (st : state W)
  : result A * state W :=
  match urls with
  | [] => (Throw (Error (label +:+ join " | " errors)), st)
  | url :: rest =>
      let (o, st1) := do_fetch url st in
      match o with
      | Rejected message =>
          try_sources label finish rest (errors ++ [url +:+ " -> " +:+ message]) st1
      | Response status json =>
          if negb (ok status) then
            try_sources label finish rest (errors ++ [url +:+ " -> " +:+ pretty status]) st1
          else
            match json with
            | Json payload => (Ok (finish url payload), st1)
            | BodyError message =>
                try_sources label finish rest (errors ++ [url +:+ " -> " +:+ message]) st1
            end
      end
  end.

(** What requesting [urls] one after the other settles to. *)
Fixpoint observe (urls : list string) (st : state W) : list fetch_outcome * state W :=
  match urls with
  | [] => ([], st)
  | url :: rest =>
      let (o, st1) := do_fetch url st in
      let (os, st2) := observe rest st1 in
      (o :: os, st2)
  end.

(** The text of the [errors] entry for a failed attempt. *)
Definition error_entry (url : string) (o : fetch_outcome) : string :=
  url +:+ " -> " +:+ default "" (failure_reason o).

Definition failed (o : fetch_outcome) : bool :=
  match failure_reason o with Some _ => true | None => false end.

Definition candidates : list string :=
  match SOURCES with
  | [] => DEFAULT_SOURCES
  | _ :: _ => SOURCES
  end.

Definition fetchFromSources (st : state W) : result (string * value) * state W :=
  try_sources "All shrine sources failed: " (fun url payload => (url, payload))
    candidates [] st.

Definition fetchPerkCatalog (st : state W) : result (list value) * state W :=
  try_sources "All perk catalog sources failed: " (fun _ payload => catalog_list payload)
    PERK_CATALOG_SOURCES [] st.

(** The [try] block of [loadShrine], after the catalog has arrived. *)
Definition enrich_with_catalog (payload : value) (catalog : list value)
  : result (list value * list value) :=
  let* merged := mapPerksWithCatalog (get_opt payload "perks" ||| VArr []) catalog in
  enrichPayload (VObj [("perks", VArr merged)]).

Definition snapshot (fetchedAt : string) (url : string) (payload : value)
    (perksWithImages images : list value) : value :=
  VObj [ ("fetchedAt", VStr fetchedAt);
         ("sourceUsed", VStr url);
         ("sourceTried", VArr (map VStr candidates));
         ("data", payload);
         ("perksWithImages", VArr perksWithImages);
         ("images", VArr images) ].

(** The test that makes [loadShrine] answer from the cache. *)
Definition cache_hit (force : bool) (st : state W) : bool :=
  negb force && truthy (cache st)
  && (Date_now (world st) - lastFetch st <? CACHE_TIME).

Definition loadShrine (force : bool) (st : state W) : result value * state W :=
  let now := Date_now (world st) in
  if cache_hit force st then (Ok (cache st), st)
  else
    match fetchFromSources st with
    | (Throw e, st1) => (Throw e, st1)
    | (Ok (url, payload), st1) =>
        let (enriched, st2) :=
          match fetchPerkCatalog st1 with
          | (Ok catalog, st2) =>
              (match enrich_with_catalog payload catalog with
               | Ok r => Ok r
               | Throw catalogErr => enrichPayload payload
               end, st2)
          | (Throw catalogErr, st2) => (enrichPayload payload, st2)
          end in
        match enriched with
        | Throw e => (Throw e, st2)
        | Ok (perksWithImages, images) =>
            let cache' :=
              snapshot (toISOString (Date_now (world st2))) url payload
                perksWithImages images in
            (Ok cache', mkState cache' now (world st2) (requests st2))
        end
    end.

(** ** The HTTP routes *)

Definition FALLBACK : value :=
  VObj [ ("source", VStr "fallback");
         ("lastUpdated", VNull);
         ("perks", VArr []) ].

(** What a handler sends: the status code and the value given to
    [res.json]. *)
Record response : Type := mkResponse {
  statusCode : Z;
  sent : value;
}.

(** [app.get("/shrine", ...)] *)
Definition shrine_route (st : state W) : response * state W :=
  match loadShrine false st with
  | (Ok data, st') => (mkResponse 200 data, st')
  | (Throw err, st') =>
      if negb (truthy (cache st')) then
        (mkResponse 200
           (VObj (set "error" (VStr "Upstream fetch failed") (spread FALLBACK))), st')
      else
        (mkResponse 500 (VObj [("error", VStr "Could not fetch shrine data")]), st')
  end.

(** [app.get("/health", ...)] *)
Definition health_route (st : state W) : response :=
  mkResponse 200
    (VObj [ ("status", VStr "ok");
            ("cacheAgeMs", if truthy (cache st)
                           then VNum (Date_now (world st) - lastFetch st)
                           else VNull);
            ("cached", VBool (truthy (cache st)));
            ("source", VStr (if truthy (cache st) then "cache" else "none")) ]).

(** [loadShrine(true).catch(...)], the body of the weekly timer and of the
    warm-up at start: a failure is logged and dropped. *)
Definition background_refresh (st : state W) : state W :=
  snd (loadShrine true st).

(** What can happen to the process state: a request to [/shrine], a
    background refresh, or the world moving on between two of them. *)
Inductive step : state W → state W → Prop :=
  | step_shrine st : step st (snd (shrine_route st))
  | step_refresh st : step st (background_refresh st)
  | step_world st w : step st (mkState (cache st) (lastFetch st) w (requests st)).

(** The states the process can be in, from the module's initial values
    [cache = null] and [lastFetch = 0]. *)
Inductive reachable : state W → Prop :=
  | reachable_init w : reachable (mkState VNull 0 w [])
  | reachable_step st st' : reachable st → step st st' → reachable st'.

(** A value that [loadShrine] can have stored in [cache]. *)
Definition stored_snapshot (v : value) : Prop :=
  ∃ fetchedAt url payload perksWithImages images,
    v = snapshot fetchedAt url payload perksWithImages images
    ∧ url ∈ candidates.

End Pipeline.

(** ** A scripted world for concrete runs *)

Module Scenario.

(** The world is the clock, in milliseconds; every request takes
    [latency] and is answered from a fixed table, a URL outside the table
    being unreachable. *)
Definition latency : Z := 250.

Fixpoint answer (table : list (string * fetch_outcome)) (url : string) : fetch_outcome :=
  match table with
  | [] => Rejected "getaddrinfo ENOTFOUND"
  | (u, o) :: rest => if String.eqb url u then o else answer rest url
  end.

Definition fetch (table : list (string * fetch_outcome)) (url : string) (t : Z)
  : fetch_outcome * Z :=
  (answer table url, t + latency).

Definition Date_now (t : Z) : Z := t.

Definition shrine_url : string := "https://dbd.tricky.lol/api/shrine".
Definition mirror_url : string :=
  "https://dbd-api.herokuapp.com/shrineofsecrets?pretty=false&branch=live".
Definition catalog_url : string := "https://dbd.tricky.lol/api/perks".

Definition perk_x : value :=
  VObj [("id", VStr "x"); ("image", VStr "http://full/url.png")].

Definition payload_x : value := VObj [("perks", VArr [perk_x])].

Definition perk_k28 : value :=
  VObj [("id", VStr "k28p02"); ("icon", VStr "/icons/a.png")].

Definition payload_k28 : value := VObj [("perks", VArr [perk_k28])].

(** The first mirror is down, the second serves [payload_x], the catalog
    is unreachable. *)
Definition degraded : list (string * fetch_outcome) :=
  [ (shrine_url, Response 503 (BodyError "Unexpected token < in JSON"));
    (mirror_url, Response 200 (Json payload_x)) ].

(** Every shrine source fails, each in its own way. *)
Definition outage : list (string * fetch_outcome) :=
  [ (shrine_url, Response 503 (Json VNull));
    (mirror_url, Response 200 (BodyError "Unexpected end of JSON input")) ].

Definition cold (t : Z) : state Z := mkState VNull 0 t [].

(** The first mirror serves a payload with a [null] among its perks; the
    catalog is unreachable. *)
Definition payload_null : value := VObj [("perks", VArr [VNull])].

Definition null_perk_served : list (string * fetch_outcome) :=
  [ (shrine_url, Response 200 (Json payload_null)) ].

(** The state left by a forced load at [t0] in the [degraded] world, and
    the same state when the clock shows [t]. *)
Definition t0 : Z := 1700000000000.

Definition warm : state Z :=
  snd (loadShrine (fetch degraded) Date_now [] true (cold t0)).

Definition at_time (t : Z) (st : state Z) : state Z :=
  mkState (cache st) (lastFetch st) t (requests st).

End Scenario.

(** * Properties *)

(** ** Values *)

Section ValueFacts.

Implicit Types (v : value) (k : string) (fields : list (string * value)).

Lemma assoc_set_eq k v fields : assoc k (set k v fields) = Some v.
Proof.
  induction fields as [|[k' v'] rest IH]; simpl.
  - by rewrite String.eqb_refl.
  - destruct (String.eqb k k') eqn:E; simpl; rewrite ?String.eqb_refl, ?E; done.
Qed.

Lemma assoc_set_ne k k' v fields :
  k ≠ k' → assoc k' (set k v fields) = assoc k' fields.
Proof.
  intros Hne. induction fields as [|[k0 v0] rest IH]; simpl.
  - destruct (String.eqb k' k) eqn:E; [|done].
    apply String.eqb_eq in E. congruence.
  - destruct (String.eqb k k0) eqn:E; simpl.
    + apply String.eqb_eq in E. subst k0.
      destruct (String.eqb k' k) eqn:E'; [|done].
      apply String.eqb_eq in E'. congruence.
    + by rewrite IH.
Qed.

Lemma or_truthy_l a b : truthy a = true → a ||| b = a.
Proof. unfold or. by intros ->. Qed.

Lemma or_falsy_l a b : truthy a = false → a ||| b = b.
Proof. unfold or. by intros ->. Qed.

Lemma or_assoc a b c : a ||| b ||| c = a ||| (b ||| c).
Proof. unfold or. destruct (truthy a) eqn:Ea; [by rewrite Ea|done]. Qed.

Lemma get_ok_opt v k x : get v k = Ok x → x = get_opt v k.
Proof. destruct v; simpl; congruence. Qed.

Lemma get_defined v k : v ≠ VNull → v ≠ VUndef → get v k = Ok (get_opt v k).
Proof. destruct v; simpl; congruence. Qed.

Lemma get_truthy_obj v k x :
  get v k = Ok x → truthy x = true → ∃ fields, v = VObj fields.
Proof. destruct v; simpl; intros [= <-] Ht; try discriminate; eauto. Qed.

Lemma mapM_length {A B} (f : A → result B) l l' :
  mapM f l = Ok l' → length l' = length l.
Proof.
  revert l'. induction l as [|x rest IH]; simpl; intros l' H.
  - by injection H as <-.
  - destruct (f x) as [y|]; [|done]. simpl in H.
    destruct (mapM f rest) as [ys|]; [|done]. simpl in H.
    injection H as <-. simpl. by rewrite (IH ys).
Qed.

Lemma mapM_lookup {A B} (f : A → result B) l l' i x :
  mapM f l = Ok l' → l !! i = Some x → ∃ y, l' !! i = Some y ∧ f x = Ok y.
Proof.
  revert l' i. induction l as [|x0 rest IH]; simpl; intros l' i H Hi; [done|].
  destruct (f x0) as [y|] eqn:Ey; [|done]. simpl in H.
  destruct (mapM f rest) as [ys|] eqn:Eys; [|done]. simpl in H.
  injection H as <-. destruct i as [|i]; simpl in *.
  - injection Hi as <-. eauto.
  - eauto.
Qed.

Lemma mapM_total {A B} (f : A → result B) l :
  Forall (λ x, ∃ y, f x = Ok y) l → ∃ l', mapM f l = Ok l'.
Proof.
  induction 1 as [|x rest [y Hy] _ [ys Hys]]; simpl; [eauto|].
  rewrite Hy. simpl. rewrite Hys. simpl. eauto.
Qed.

End ValueFacts.

(** ** Built-ins on sample inputs *)

Example toString_nested :
  toString (VArr [VNum 1; VNull; VArr [VStr "a"; VBool true]; VObj []])
  = Ok "1,,a,true,[object Object]".
Proof. vm_compute. reflexivity. Qed.

Example toString_shadowed :
  toString (VObj [("toString", VNum 1)]) = Throw (TypeError "toString is not a function").
Proof. reflexivity. Qed.

Example normalized_key_upper : normalized_key (VStr "K28P02") = Ok "k28p02".
Proof. reflexivity. Qed.

Example toISOString_epoch : toISOString 0 = "1970-01-01T00:00:00.000Z".
Proof. vm_compute. reflexivity. Qed.

Example toISOString_leap_day : toISOString 1709210096789 = "2024-02-29T12:34:56.789Z".
Proof. vm_compute. reflexivity. Qed.

Example override_name_inherited :
  override_name "k32p02" = VStr "Forced Hesitation"
  ∧ override_name "constructor" = VStr "Object"
  ∧ override_name "__proto__" = VUndef
  ∧ override_name "k99p99" = VUndef.
Proof. repeat split. Qed.

Example catalog_list_keyed :
  catalog_list (VObj [("K1", VObj [("name", VStr "A"); ("icon", VStr "a.png")])])
  = [VObj [("id", VStr "K1"); ("name", VStr "A"); ("icon", VStr "a.png")]].
Proof. reflexivity. Qed.

(** ** Image normalization *)

Lemma prefix_app_l (a b s : string) :
  String.prefix (a +:+ b) s = true → String.prefix a s = true.
Proof.
  revert s. induction a as [|c a IH]; intros s; simpl.
  - by destruct s.
  - destruct s as [|c' s]; [done|]. simpl.
    destruct (ascii_dec c c'); [apply IH|done].
Qed.

Lemma normalizeImageUrl_absolute (s : string) :
  startsWith s "http" = true → normalizeImageUrl (VStr s) = Ok (VStr s).
Proof.
  intros H. destruct s as [|c s]; [done|].
  unfold normalizeImageUrl. cbn [truthy String.eqb negb]. by rewrite H.
Qed.

Lemma normalizeImageUrl_joined (s : string) :
  startsWith (BASE_HOST +:+ s) "http" = true.
Proof. reflexivity. Qed.

Lemma normalizeImageUrl_stable (s : string) :
  ∃ v, normalizeImageUrl (VStr s) = Ok v ∧ normalizeImageUrl v = Ok v.
Proof.
  destruct s as [|c s]; [by exists VNull|].
  destruct (startsWith (String c s) "http") eqn:E.
  - exists (VStr (String c s)). by rewrite normalizeImageUrl_absolute.
  - unfold normalizeImageUrl at 1. cbn [truthy String.eqb negb]. rewrite E.
    eexists. split; [reflexivity|].
    apply normalizeImageUrl_absolute.
    destruct (startsWith (String c s) "/"); apply normalizeImageUrl_joined.
Qed.

(** C9, amended. Normalizing a string twice gives what normalizing it
    once gives. The empty string gives [null]; a string that starts with
    the four characters [http], whatever follows them, is returned as it
    is; any other non-empty string is appended to the base host, with a
    slash in between exactly when it does not start with one. *)
Theorem normalizeImageUrl_idempotent (s : string) :
  (∃ v, normalizeImageUrl (VStr s) = Ok v ∧ normalizeImageUrl v = Ok v)
  ∧ (s = "" → normalizeImageUrl (VStr s) = Ok VNull)
  ∧ (startsWith s "http" = true → normalizeImageUrl (VStr s) = Ok (VStr s))
  ∧ (s ≠ "" → startsWith s "http" = false →
     normalizeImageUrl (VStr s)
     = Ok (VStr (if startsWith s "/" then BASE_HOST +:+ s
                 else BASE_HOST +:+ "/" +:+ s))).
Proof.
  split; [|split; [|split]].
  - apply normalizeImageUrl_stable.
  - by intros ->.
  - apply normalizeImageUrl_absolute.
  - intros Hne E. destruct s as [|c s]; [done|].
    unfold normalizeImageUrl. cbn [truthy String.eqb negb]. rewrite E.
    by destruct (startsWith (String c s) "/").
Qed.

Lemma normalizeImageUrl_idempotent_witness :
  normalizeImageUrl (VStr "") = Ok VNull
  ∧ normalizeImageUrl (VStr "https://cdn/a.png") = Ok (VStr "https://cdn/a.png")
  ∧ normalizeImageUrl (VStr "httpfoo.png") = Ok (VStr "httpfoo.png")
  ∧ normalizeImageUrl (VStr "icons/a.png") = Ok (VStr "https://dbd.tricky.lol/icons/a.png")
  ∧ normalizeImageUrl (VStr "/icons/a.png") = Ok (VStr "https://dbd.tricky.lol/icons/a.png")
  ∧ normalizeImageUrl (VStr "HTTP://X/a.png")
    = Ok (VStr "https://dbd.tricky.lol/HTTP://X/a.png").
Proof.
  split; [|split; [|split; [|split; [|split]]]].
  - by apply (normalizeImageUrl_idempotent "").
  - by apply (normalizeImageUrl_idempotent "https://cdn/a.png").
  - by apply (normalizeImageUrl_idempotent "httpfoo.png").
  - apply (normalizeImageUrl_idempotent "icons/a.png"); [discriminate|reflexivity].
  - apply (normalizeImageUrl_idempotent "/icons/a.png"); [discriminate|reflexivity].
  - apply (normalizeImageUrl_idempotent "HTTP://X/a.png"); [discriminate|reflexivity].
Defined.

(** C9, as claimed, fails in its second and third part, because the code
    tests for the bare prefix [http], in lower case, and not for a scheme.
    The relative path ["httpfoo.png"] does not start with [http://] or
    [https://], yet it is returned as it is instead of being joined to the
    base host; and ["HTTP://X/a.png"], which does start with an HTTP
    scheme, is joined to the base host instead of being returned. *)
Lemma normalizeImageUrl_prefix_is_not_scheme :
  ¬ (∀ s, s ≠ "" →
       startsWith s "http://" = false → startsWith s "https://" = false →
       normalizeImageUrl (VStr s)
       = Ok (VStr (if startsWith s "/" then BASE_HOST +:+ s
                   else BASE_HOST +:+ "/" +:+ s)))
  ∧ normalizeImageUrl (VStr "httpfoo.png") = Ok (VStr "httpfoo.png")
  ∧ startsWith (toLowerCase "HTTP://X/a.png") "http://" = true
  ∧ normalizeImageUrl (VStr "HTTP://X/a.png") ≠ Ok (VStr "HTTP://X/a.png").
Proof.
  split; [|split; [|split]].
  - intros H. specialize (H "httpfoo.png"). vm_compute in H.
    specialize (H ltac:(discriminate) eq_refl eq_refl). discriminate H.
  - reflexivity.
  - reflexivity.
  - vm_compute. discriminate.
Qed.

(** ** The catalog merge *)

Section Merge.

Implicit Types (perk found merged : value) (byId : gmap string value).
Implicit Types (perks catalog out : list value) (key : string).

Lemma get_ok_other perk k k' x : get perk k = Ok x → get perk k' = Ok (get_opt perk k').
Proof. destruct perk; simpl; congruence. Qed.

Lemma override_name_table key n :
  lookup_name key PERK_OVERRIDES = Some n →
  override_name key = VStr n ∧ truthy (VStr n) = true.
Proof.
  unfold override_name. intros H. rewrite H. split; [done|].
  simpl in H. repeat (destruct (String.eqb key _); [by injection H as <-|]).
  done.
Qed.

(** Only entries that passed the [if (!perk) continue] test are stored. *)
Lemma index_entry_truthy byId byId' perk :
  map_Forall (λ _ v, truthy v = true) byId →
  index_entry byId perk = Ok byId' →
  map_Forall (λ _ v, truthy v = true) byId'.
Proof.
  intros Hall. unfold index_entry.
  destruct (truthy perk) eqn:Et; simpl; [|by intros [= <-]].
  destruct (get perk "id"); [simpl|done].
  destruct (get perk "perkId"); [simpl|done].
  destruct (get perk "name"); [simpl|done].
  destruct (normalized_key _) as [key|]; [simpl|done].
  destruct (negb (String.eqb key "")); intros [= <-]; [|done].
  by apply map_Forall_insert_2.
Qed.

Lemma index_catalog_truthy catalog byId byId' :
  map_Forall (λ _ v, truthy v = true) byId →
  index_catalog byId catalog = Ok byId' →
  map_Forall (λ _ v, truthy v = true) byId'.
Proof.
  revert byId. induction catalog as [|perk rest IH]; simpl; intros byId Hall H.
  - by injection H as <-.
  - destruct (index_entry byId perk) as [byId1|] eqn:E; [simpl in H|done].
    eauto using index_entry_truthy.
Qed.

(** The blank key is never stored. *)
Lemma index_catalog_blank catalog byId byId' :
  byId !! "" = None → index_catalog byId catalog = Ok byId' → byId' !! "" = None.
Proof.
  revert byId. induction catalog as [|perk rest IH]; simpl; intros byId Hb H.
  - by injection H as <-.
  - destruct (index_entry byId perk) as [byId1|] eqn:E; [simpl in H|done].
    apply (IH byId1); [|done]. revert E. unfold index_entry.
    destruct (truthy perk); simpl; [|by intros [= <-]].
    destruct (get perk "id"); [simpl|done].
    destruct (get perk "perkId"); [simpl|done].
    destruct (get perk "name"); [simpl|done].
    destruct (normalized_key _) as [key|]; [simpl|done].
    destruct (String.eqb key "") eqn:Ek; simpl; intros [= <-]; [done|].
    apply String.eqb_neq in Ek. by rewrite lookup_insert_ne.
Qed.

(** A perk that is neither in the index nor given a name by
    [PERK_OVERRIDES[key]] is returned as it is. *)
Lemma merge_perk_passthrough byId perk id key :
  get perk "id" = Ok id → normalized_key id = Ok key →
  byId !! key = None → override_name key = VUndef →
  merge_perk byId perk = Ok perk.
Proof.
  intros Hid Hkey Hnone Hov. unfold merge_perk.
  rewrite Hid. simpl. rewrite Hkey. simpl. by rewrite Hnone, Hov.
Qed.

(** The shape of a perk that [merge_perk] rebuilds. *)
Lemma merge_perk_rebuilt byId perk id key merged :
  get perk "id" = Ok id → normalized_key id = Ok key →
  truthy (default VUndef (byId !! key)) || truthy (override_name key) = true →
  merge_perk byId perk = Ok merged →
  ∃ fields,
    merged = VObj fields
    ∧ assoc "name" fields
      = Some (override_name key ||| get_opt (default VUndef (byId !! key)) "name"
              ||| get_opt (default VUndef (byId !! key)) "displayName"
              ||| get_opt perk "name" ||| VStr key)
    ∧ ∀ k, k ≠ "name" → k ≠ "description" → k ≠ "role" → k ≠ "character" →
           k ≠ "image" → assoc k fields = assoc k (spread perk).
Proof.
  intros Hid Hkey Hor. unfold merge_perk.
  rewrite Hid. simpl. rewrite Hkey. simpl.
  rewrite <- negb_orb, Hor. simpl.
  destruct (normalizeImageUrl _) as [image|]; [simpl|done].
  rewrite !(get_ok_other _ _ _ _ Hid). simpl. intros [= <-].
  eexists. split; [reflexivity|]. split.
  - rewrite !assoc_set_ne by done. apply assoc_set_eq.
  - intros k ? ? ? ? ?. by rewrite !assoc_set_ne.
Qed.

Lemma mapPerksWithCatalog_inv perks catalog out :
  mapPerksWithCatalog (VArr perks) catalog = Ok out →
  ∃ byId, index_catalog ∅ catalog = Ok byId ∧ mapM (merge_perk byId) perks = Ok out.
Proof.
  unfold mapPerksWithCatalog.
  destruct (index_catalog ∅ catalog) as [byId|]; [simpl|done]. eauto.
Qed.

(** Whenever the merge returns, it returns one perk per shrine perk, the
    perk at each position made from the shrine perk at that position. *)
Lemma mapPerksWithCatalog_pointwise perks catalog out :
  mapPerksWithCatalog (VArr perks) catalog = Ok out →
  length out = length perks
  ∧ ∃ byId, index_catalog ∅ catalog = Ok byId
      ∧ ∀ i perk, perks !! i = Some perk →
          ∃ merged, out !! i = Some merged ∧ merge_perk byId perk = Ok merged.
Proof.
  intros (byId & Hidx & Hmap)%mapPerksWithCatalog_inv. split.
  - eapply mapM_length, Hmap.
  - exists byId. split; [done|]. intros i perk Hi. eapply mapM_lookup; eauto.
Qed.

(** C3. A shrine perk whose key is in the override table and that has a
    catalog entry carrying a name gets the table's name: the callback
    either returns a perk with that name or throws because the catalog
    entry's image is not a string, and every list [mapPerksWithCatalog]
    returns has that name at the perk's position. *)
Theorem override_name_wins catalog byId perks i perk id key n found :
  index_catalog ∅ catalog = Ok byId →
  perks !! i = Some perk →
  get perk "id" = Ok id → normalized_key id = Ok key →
  lookup_name key PERK_OVERRIDES = Some n →
  byId !! key = Some found → truthy (get_opt found "name") = true →
  match merge_perk byId perk with
  | Ok merged => get merged "name" = Ok (VStr n)
  | Throw e => normalizeImageUrl (extractImage found) = Throw e
  end
  ∧ ∀ out, mapPerksWithCatalog (VArr perks) catalog = Ok out →
      ∃ merged, out !! i = Some merged ∧ get merged "name" = Ok (VStr n).
Proof.
  intros Hidx Hi Hid Hkey Htab Hfound _.
  destruct (override_name_table _ _ Htab) as [Hov Hn].
  assert (Hname : ∀ merged, merge_perk byId perk = Ok merged →
                            get merged "name" = Ok (VStr n)).
  { intros merged Hm.
    destruct (merge_perk_rebuilt byId perk id key merged) as (fields & -> & Hnm & _);
      [done|done| |done|].
    - by rewrite Hov, Hn, orb_true_r.
    - simpl. rewrite Hnm, Hov. simpl. by rewrite !(or_truthy_l (VStr n)). }
  split.
  - destruct (merge_perk byId perk) as [merged|e] eqn:Em; [by apply Hname|].
    revert Em. unfold merge_perk. rewrite Hid. simpl. rewrite Hkey. simpl.
    rewrite Hfound, Hov, Hn. simpl.
    assert (truthy found = true) as ->.
    { eapply (index_catalog_truthy catalog ∅ byId); [apply map_Forall_empty|done..]. }
    simpl. destruct (normalizeImageUrl (extractImage found)); simpl; [|done].
    by rewrite !(get_ok_other _ _ _ _ Hid).
  - intros out (_ & byId' & Hidx' & Hall)%mapPerksWithCatalog_pointwise.
    assert (byId' = byId) as -> by congruence.
    destruct (Hall i perk Hi) as (merged & Ho & Hm). eauto.
Qed.

Lemma override_name_wins_witness :
  ∃ merged,
    mapPerksWithCatalog
      (VArr [VObj [("id", VStr "K32P02"); ("name", VStr "?")]])
      [VObj [("id", VStr "k32p02"); ("name", VStr "Forced Hesitation (catalog)");
             ("description", VStr "x")]]
    = Ok [merged]
    ∧ get merged "name" = Ok (VStr "Forced Hesitation").
Proof.
  eexists. split; [vm_compute; reflexivity|].
  set (entry := VObj [("id", VStr "k32p02"); ("name", VStr "Forced Hesitation (catalog)");
                      ("description", VStr "x")]).
  set (perk := VObj [("id", VStr "K32P02"); ("name", VStr "?")]).
  pose proof (override_name_wins [entry] (<["k32p02" := entry]> ∅) [perk] 0 perk
                (VStr "K32P02") "k32p02" "Forced Hesitation" entry
                eq_refl eq_refl eq_refl eq_refl eq_refl
                (lookup_insert_eq _ _ _) eq_refl) as [H _].
  exact H.
Defined.

(** On well-formed input the merge returns. *)
Lemma toString_primitive v : primitive v = true → ∃ s, toString v = Ok s.
Proof. destruct v; simpl; try done; eauto. Qed.

Lemma normalized_key_primitive v :
  primitive v = true → ∃ key, normalized_key v = Ok key.
Proof.
  intros Hv. unfold normalized_key.
  assert (primitive (v ||| VStr "") = true) as [s ->]%toString_primitive.
  { unfold or. by destruct (truthy v). }
  simpl. eauto.
Qed.

Lemma normalizeImageUrl_text entry :
  text_image entry = true → ∃ image, normalizeImageUrl (extractImage entry) = Ok image.
Proof.
  unfold text_image. destruct (extractImage entry) as [| |b|n|s|l|fields]; try done.
  - by exists VNull.
  - intros _. destruct (normalizeImageUrl_stable s) as (v & -> & _). eauto.
Qed.

Lemma index_catalog_total catalog byId :
  Forall (λ entry, wf_entry entry = true) catalog →
  map_Forall (λ _ v, text_image v = true) byId →
  ∃ byId', index_catalog byId catalog = Ok byId'
    ∧ map_Forall (λ _ v, text_image v = true) byId'.
Proof.
  intros Hall. revert byId.
  induction Hall as [|entry rest Hwf _ IH]; intros byId Hm; simpl; [eauto|].
  unfold index_entry, wf_entry in *.
  destruct (truthy entry) eqn:Et; simpl in *; [|by apply IH].
  apply andb_true_iff in Hwf as [[[Hid Hpid]%andb_true_iff Hname]%andb_true_iff Himg].
  rewrite !(get_defined entry) by (by destruct entry). simpl.
  destruct (normalized_key_primitive
              (get_opt entry "id" ||| get_opt entry "perkId" ||| get_opt entry "name"))
    as [key ->].
  { unfold or. by repeat destruct (truthy _). }
  simpl. destruct (negb (String.eqb key "")); apply IH; [|done].
  by apply map_Forall_insert_2.
Qed.

Lemma merge_perk_total byId perk :
  wf_perk perk = true →
  map_Forall (λ _ v, text_image v = true) byId →
  ∃ merged, merge_perk byId perk = Ok merged.
Proof.
  intros Hwf Hm. unfold merge_perk.
  assert (Hn : perk ≠ VNull) by (by destruct perk).
  assert (Hu : perk ≠ VUndef) by (by destruct perk).
  rewrite !(get_defined perk) by done. simpl.
  destruct (normalized_key_primitive (get_opt perk "id")) as [key ->].
  { by destruct perk. }
  simpl. destruct (negb _ && negb _); [eauto|].
  destruct (byId !! key) as [found|] eqn:Ef; simpl.
  - destruct (normalizeImageUrl_text found) as [image Hi].
    { by apply (map_Forall_lookup_1 _ _ _ _ Hm Ef). }
    destruct (truthy found); [rewrite Hi|]; simpl; eauto.
  - eauto.
Qed.

Lemma mapPerksWithCatalog_total perks catalog :
  Forall (λ perk, wf_perk perk = true) perks →
  Forall (λ entry, wf_entry entry = true) catalog →
  ∃ out, mapPerksWithCatalog (VArr perks) catalog = Ok out.
Proof.
  intros Hp Hc. unfold mapPerksWithCatalog.
  destruct (index_catalog_total catalog ∅ Hc) as (byId & -> & Hm);
    [apply map_Forall_empty|].
  simpl. apply mapM_total. eapply Forall_impl; [exact Hp|].
  intros perk Hwf. by apply merge_perk_total.
Qed.

(** C2. The shrine perk [{id: "constructor"}] has no catalog entry and
    no entry in the override table, yet it is not passed through: indexing
    the object literal [PERK_OVERRIDES] with its key finds the inherited
    [constructor] property, the function [Object], whose [name] then
    counts as an override name, and the perk is rebuilt with the name
    ["Object"] and four more properties. *)
Theorem constructor_perk_not_passed_through :
  let perk := VObj [("id", VStr "constructor")] in
  lookup_name "constructor" PERK_OVERRIDES = None
  ∧ index_catalog ∅ [] = Ok ∅
  ∧ mapPerksWithCatalog (VArr [perk]) []
    = Ok [VObj [("id", VStr "constructor"); ("name", VStr "Object");
                ("description", VUndef); ("role", VUndef);
                ("character", VUndef); ("image", VUndef)]]
  ∧ mapPerksWithCatalog (VArr [perk]) [] ≠ Ok [perk].
Proof.
  intros perk. split; [reflexivity|]. split; [reflexivity|].
  split; [vm_compute; reflexivity | vm_compute; discriminate].
Qed.

(** A [null] among the shrine perks makes the merge throw, although the
    loop over the catalog skips such entries. *)
Lemma null_perk_not_merged catalog byId :
  index_catalog ∅ catalog = Ok byId →
  ∃ e, mapPerksWithCatalog (VArr [VNull]) catalog = Throw e.
Proof. intros H. unfold mapPerksWithCatalog. rewrite H. simpl. eauto. Qed.

(** What does hold: a list that comes back has the length and the order
    of the shrine perks, every perk keeps its [id], and a perk without
    catalog entry for which [PERK_OVERRIDES[key]] has no name, own or
    inherited, is the very perk passed in. *)
Lemma mapPerksWithCatalog_preserves perks catalog out :
  mapPerksWithCatalog (VArr perks) catalog = Ok out →
  length out = length perks
  ∧ ∃ byId, index_catalog ∅ catalog = Ok byId
      ∧ ∀ i perk id key,
          perks !! i = Some perk →
          get perk "id" = Ok id → normalized_key id = Ok key →
          ∃ merged, out !! i = Some merged
            ∧ get merged "id" = Ok id
            ∧ (byId !! key = None → override_name key = VUndef → merged = perk).
Proof.
  intros (Hlen & byId & Hidx & Hall)%mapPerksWithCatalog_pointwise.
  split; [done|]. exists byId. split; [done|].
  intros i perk id key Hi Hid Hkey.
  destruct (Hall i perk Hi) as (merged & Ho & Hm).
  exists merged. split; [done|]. split.
  - destruct (truthy (default VUndef (byId !! key)) || truthy (override_name key)) eqn:E.
    + destruct (merge_perk_rebuilt byId perk id key merged) as (fields & -> & _ & Hk);
        [done..|].
      simpl. rewrite Hk by done.
      destruct perk as [| |b|m|s|l|fields0]; simpl in Hid; try discriminate;
        [| | | |exact Hid].
      all: assert (id = VUndef) as -> by congruence.
      all: assert (key = "") as -> by (vm_compute in Hkey; congruence).
      all: rewrite (index_catalog_blank catalog ∅ byId) in E by done.
      all: discriminate E.
    + apply orb_false_iff in E as [E1 E2].
      revert Hm. unfold merge_perk. rewrite Hid. simpl. rewrite Hkey. simpl.
      rewrite E1, E2. simpl. by intros [= <-].
  - intros Hnone Hov. rewrite (merge_perk_passthrough byId perk id key) in Hm by done.
    by injection Hm.
Qed.

End Merge.

(** ** The override scenario *)

(** C6, as claimed, fails: for the perk [{id: "k28p02", icon:
    "/icons/a.png"}] and an empty catalog, neither the perk returned by
    [mapPerksWithCatalog] nor the one [enrichPayload] then makes of it has
    the image ["https://dbd.tricky.lol/icons/a.png"]. *)
Lemma override_scenario_image_not_joined :
  ¬ ∃ merged,
      (mapPerksWithCatalog (VArr [Scenario.perk_k28]) [] = Ok [merged]
       ∨ ∃ images, enrich_with_catalog Scenario.payload_k28 [] = Ok ([merged], images))
      ∧ get merged "image" = Ok (VStr "https://dbd.tricky.lol/icons/a.png").
Proof.
  intros (merged & [H | [images H]] & Himg); vm_compute in H;
    injection H as <-; vm_compute in Himg; discriminate Himg.
Qed.

(** C6, amended. The merged perk is named ["Darkness Revealed"]; the
    merge leaves its [image] undefined, and [enrichPayload] then fills in
    the perk's own icon reference as it stands, ["/icons/a.png"], also in
    the [images] list. *)
Theorem override_scenario :
  ∃ merged enriched,
    mapPerksWithCatalog (VArr [Scenario.perk_k28]) [] = Ok [merged]
    ∧ get merged "name" = Ok (VStr "Darkness Revealed")
    ∧ get merged "image" = Ok VUndef
    ∧ enrich_with_catalog Scenario.payload_k28 []
      = Ok ([enriched], [VObj [("name", VStr "Darkness Revealed");
                               ("image", VStr "/icons/a.png")]])
    ∧ get enriched "name" = Ok (VStr "Darkness Revealed")
    ∧ get enriched "image" = Ok (VStr "/icons/a.png").
Proof. do 2 eexists. repeat split; vm_compute; reflexivity. Qed.

(** ** Plain enrichment *)

Section Enrich.

Implicit Types (perk p : value) (perks : list value).

(** C10. On the payload [{perks: [null]}] the function throws instead of
    returning empty [images]: [extractImage] answers [null] for the perk,
    the perk is kept as it is, and reading [p.name] from it fails. *)
Theorem enrichPayload_null_perk :
  extractImage VNull = VNull
  ∧ with_image VNull = VNull
  ∧ enrichPayload (VObj [("perks", VArr [VNull])])
    = Throw (TypeError "cannot read property name").
Proof. repeat split. Qed.

Lemma find_truthy_spec (l : list value) :
  (truthy (find_truthy l) = true ∧ find_truthy l ∈ l)
  ∨ (find_truthy l = VUndef ∧ Forall (λ v, truthy v = false) l).
Proof.
  unfold find_truthy. induction l as [|v l IH]; simpl.
  - right. split; [done|constructor].
  - destruct (truthy v) eqn:E; simpl.
    + left. split; [done|]. apply elem_of_cons. by left.
    + destruct IH as [[Ht Hin]|[Hu Hall]]; [left|right].
      * split; [done|]. apply elem_of_cons. by right.
      * split; [done|by constructor].
Qed.

(** [extractImage] answers a truthy value or [null]. *)
Lemma extractImage_cases perk :
  truthy (extractImage perk) = true
  ∨ (extractImage perk = VNull ∧ truthy (get_opt perk "image") = false).
Proof.
  unfold extractImage.
  destruct (negb (truthy perk) || negb (typeof_object perk)) eqn:E.
  - right. split; [done|].
    destruct perk as [| |b|n|s|l|fields]; try done.
  - destruct (find_truthy_spec (map (get_opt perk) image_fields)) as [[Ht _]|[Hu Hall]].
    + left. by rewrite or_truthy_l.
    + right. rewrite Hu. split; [done|].
      rewrite Forall_forall in Hall. apply Hall.
      do 3 (apply elem_of_cons; right). apply elem_of_cons. by left.
Qed.

(** The [images] record made from the perk [with_image perk]: its image
    is the extracted one, or [null] when there is none. *)
Lemma image_record_with_image perk :
  perk ≠ VNull → perk ≠ VUndef →
  ∃ name, image_record (with_image perk)
          = Ok (VObj [("name", name); ("image", extractImage perk)]).
Proof.
  intros Hn Hu. unfold with_image.
  destruct (extractImage_cases perk) as [Ht|[He Hi]].
  - rewrite Ht. unfold image_record. simpl.
    rewrite assoc_set_eq. simpl.
    rewrite !(or_truthy_l (extractImage perk)) by done. eauto.
  - rewrite He. simpl. unfold image_record.
    rewrite !(get_defined perk) by done. simpl. rewrite He.
    rewrite (or_falsy_l (get_opt perk "image")) by done. eauto.
Qed.

Lemma enrichPayload_records perks :
  Forall (λ perk, perk ≠ VNull ∧ perk ≠ VUndef) perks →
  ∃ records,
    mapM image_record (map with_image perks) = Ok records
    ∧ Forall2 (λ perk r, ∃ name, r = VObj [("name", name);
                                           ("image", extractImage perk)])
        perks records.
Proof.
  induction 1 as [|perk rest [Hn Hu] _ (records & Hm & Hall)]; simpl.
  - eexists. split; [done|constructor].
  - destruct (image_record_with_image perk Hn Hu) as [name ->]. simpl.
    rewrite Hm. simpl. eexists. split; [done|]. constructor; eauto.
Qed.

Lemma filter_records perks records :
  Forall2 (λ perk r, ∃ name, r = VObj [("name", name);
                                       ("image", extractImage perk)])
    perks records →
  Forall2 (λ perk r, ∃ name, r = VObj [("name", name);
                                       ("image", extractImage perk)])
    (List.filter has_extractable_image perks) (List.filter has_image records).
Proof.
  induction 1 as [|perk r perks records [name ->] _ IH]; simpl; [constructor|].
  unfold has_image at 1, has_extractable_image at 1. simpl.
  destruct (truthy (extractImage perk)); [constructor; eauto|done].
Qed.

(** What does hold: when no perk is [null] or [undefined], the function
    returns; [perksWithImages] has one element per perk, and [images]
    has, in perk order, one record for each perk with an extractable
    image, carrying that image. *)
Lemma enrichPayload_images payload perks :
  get_opt payload "perks" = VArr perks →
  Forall (λ perk, perk ≠ VNull ∧ perk ≠ VUndef) perks →
  ∃ images,
    enrichPayload payload = Ok (map with_image perks, images)
    ∧ Forall2 (λ perk r, ∃ name, r = VObj [("name", name);
                                           ("image", extractImage perk)])
        (List.filter has_extractable_image perks) images
    ∧ Forall (λ r, truthy (get_opt r "image") = true) images.
Proof.
  intros Hp Hall. unfold enrichPayload. rewrite Hp.
  destruct (enrichPayload_records perks Hall) as (records & -> & Hrec). simpl.
  eexists. split; [done|]. split; [by apply filter_records|].
  apply Forall_forall. intros r Hr.
  apply list_elem_of_In, filter_In in Hr as [_ Hr]. exact Hr.
Qed.

(** A payload without an array of perks gives two empty lists. *)
Lemma enrichPayload_no_perks payload :
  isArray (get_opt payload "perks") = false → enrichPayload payload = Ok ([], []).
Proof. unfold enrichPayload. by destruct (get_opt payload "perks"). Qed.

End Enrich.

(** ** The source loop *)

Section Fetch.

Context {W : Type}.
Variable fetch : string → W → fetch_outcome * W.
Variable Date_now : W → Z.
Variable SOURCES : list string.

Implicit Types (st : state W) (url : string) (urls errors : list string).
Implicit Types (o : fetch_outcome) (outs : list fetch_outcome).

Local Abbreviation do_fetch := (do_fetch fetch).
Local Abbreviation observe := (observe fetch).
Local Abbreviation try_sources := (try_sources fetch).
Local Abbreviation candidates := (candidates SOURCES).
Local Abbreviation fetchFromSources := (fetchFromSources fetch SOURCES).
Local Abbreviation fetchPerkCatalog := (fetchPerkCatalog fetch).
Local Abbreviation loadShrine := (loadShrine fetch Date_now SOURCES).
Local Abbreviation cache_hit := (cache_hit Date_now).
Local Abbreviation snapshot := (snapshot SOURCES).

Lemma do_fetch_frame url st o st1 :
  do_fetch url st = (o, st1) →
  cache st1 = cache st ∧ lastFetch st1 = lastFetch st
  ∧ requests st1 = requests st ++ [url].
Proof.
  unfold do_fetch. destruct (fetch url (world st)) as [o' w].
  by intros [= <- <-].
Qed.

Lemma candidates_nonempty : ∃ url rest, candidates = url :: rest.
Proof. unfold candidates. destruct SOURCES; simpl; eauto. Qed.

Lemma observe_length urls st outs st' :
  observe urls st = (outs, st') → length outs = length urls.
Proof.
  revert st outs. induction urls as [|url rest IH]; simpl; intros st outs.
  - by intros [= <- <-].
  - destruct (do_fetch url st) as [o st1].
    destruct (observe rest st1) as [os st2] eqn:E.
    intros [= <- <-]. simpl. by rewrite (IH st1 os).
Qed.

(** One turn of the loop after a failed attempt: the entry is pushed and
    the loop goes on with the remaining URLs. *)
Lemma try_sources_step_failed {A} label (finish : string → value → A)
    url rest errors st o st1 :
  do_fetch url st = (o, st1) → failed o = true →
  try_sources label finish (url :: rest) errors st
  = try_sources label finish rest (errors ++ [error_entry url o]) st1.
Proof.
  intros Hf Ho. simpl. rewrite Hf. unfold failed, error_entry in *.
  destruct o as [message|status [payload|message]]; simpl in *; try done;
    destruct (ok status); simpl in *; done.
Qed.

Lemma try_sources_step_success {A} label (finish : string → value → A)
    url rest errors st status payload st1 :
  do_fetch url st = (Response status (Json payload), st1) → ok status = true →
  try_sources label finish (url :: rest) errors st = (Ok (finish url payload), st1).
Proof. intros Hf Ho. simpl. by rewrite Hf, Ho. Qed.

Lemma try_sources_all_failed {A} label (finish : string → value → A)
    urls errors st outs st' :
  observe urls st = (outs, st') → forallb failed outs = true →
  try_sources label finish urls errors st
  = (Throw (Error (label +:+ join " | " (errors ++ zip_with error_entry urls outs))), st').
Proof.
  revert errors st outs. induction urls as [|url rest IH]; intros errors st outs.
  - simpl. intros [= <- <-] _. by rewrite app_nil_r.
  - cbn [observe]. destruct (do_fetch url st) as [o st1] eqn:Ef.
    destruct (observe rest st1) as [os st2] eqn:Eo.
    intros [= <- <-]. cbn [forallb]. intros [Ho Hos]%andb_true_iff.
    rewrite (try_sources_step_failed _ _ _ _ _ _ _ _ Ef Ho).
    rewrite (IH _ _ _ Eo Hos). cbn [zip_with]. by rewrite <- app_assoc.
Qed.

Lemma try_sources_first_success {A} label (finish : string → value → A)
    pre url post errors st outs st1 status payload st2 :
  observe pre st = (outs, st1) → forallb failed outs = true →
  do_fetch url st1 = (Response status (Json payload), st2) → ok status = true →
  try_sources label finish (pre ++ url :: post) errors st
  = (Ok (finish url payload), st2).
Proof.
  revert errors st outs. induction pre as [|u pre IH]; intros errors st outs.
  - simpl. intros [= <- <-] _ Hf Ho. by rewrite Hf, Ho.
  - cbn [observe]. destruct (do_fetch u st) as [o st0] eqn:Ef.
    destruct (observe pre st0) as [os st0'] eqn:Eo.
    intros [= <- <-]. cbn [forallb]. intros [Ho Hos]%andb_true_iff Hf Hok.
    rewrite <- app_comm_cons.
    rewrite (try_sources_step_failed _ _ _ _ _ _ _ _ Ef Ho). eauto.
Qed.

(** The loop touches neither [cache] nor [lastFetch]; it only adds
    requests, and at least one when there is a URL to try. *)
Lemma try_sources_frame {A} label (finish : string → value → A)
    urls errors st r st' :
  try_sources label finish urls errors st = (r, st') →
  cache st' = cache st ∧ lastFetch st' = lastFetch st
  ∧ ∃ more, requests st' = requests st ++ more
      ∧ ∀ url rest, urls = url :: rest → ∃ more', more = url :: more'.
Proof.
  revert errors st. induction urls as [|u rest IH]; intros errors st; simpl.
  - intros [= <- <-]. repeat split. exists []. by rewrite app_nil_r.
  - destruct (do_fetch u st) as [o st1] eqn:Ef.
    destruct (do_fetch_frame _ _ _ _ Ef) as (Hc & Hl & Hr).
    assert (Hgo : ∀ errors', try_sources label finish rest errors' st1 = (r, st') →
      cache st' = cache st ∧ lastFetch st' = lastFetch st
      ∧ ∃ more, requests st' = requests st ++ more
          ∧ ∀ url rest', u :: rest = url :: rest' → ∃ more', more = url :: more').
    { intros errors' (Hc' & Hl' & more & Hr' & _)%IH.
      split; [congruence|]. split; [congruence|].
      exists (u :: more). split; [by rewrite Hr', Hr, <- app_assoc|].
      intros ? ? [= <- <-]. eauto. }
    destruct o as [message|status [payload|message]];
      [by apply Hgo|destruct (ok status); simpl..]; try by apply Hgo.
    intros [= <- <-]. split; [done|]. split; [done|].
    exists [u]. split; [done|]. intros ? ? [= <- <-]. eauto.
Qed.

(** C1. When the candidates before [url] all fail and the request to
    [url] is answered with a 2xx status and a body that parses,
    [fetchFromSources] returns that URL with that payload. *)
Theorem fetchFromSources_first_success st pre url post outs st1 status payload st2 :
  candidates = pre ++ url :: post →
  observe pre st = (outs, st1) → forallb failed outs = true →
  do_fetch url st1 = (Response status (Json payload), st2) →
  200 ≤ status < 300 →
  fetchFromSources st = (Ok (url, payload), st2).
Proof.
  intros Hc Hpre Hfail Hf Hs. unfold fetchFromSources. rewrite Hc.
  eapply try_sources_first_success; eauto.
  unfold ok. apply andb_true_iff. split; [apply Z.leb_le|apply Z.ltb_lt]; lia.
Qed.

(** C8. When every candidate fails, [fetchFromSources] throws an error
    whose message is the fixed prefix followed by the entries joined with
    [" | "]; there is one entry per candidate, the entry at each position
    being the candidate at that position, [" -> "] and the reason its
    attempt failed. *)
Theorem fetchFromSources_all_failed st outs st' :
  observe candidates st = (outs, st') → forallb failed outs = true →
  ∃ entries,
    fetchFromSources st
    = (Throw (Error ("All shrine sources failed: " +:+ join " | " entries)), st')
    ∧ length entries = length candidates
    ∧ ∀ i url o, candidates !! i = Some url → outs !! i = Some o →
        ∃ reason, failure_reason o = Some reason
          ∧ entries !! i = Some (url +:+ " -> " +:+ reason).
Proof.
  intros Hobs Hfail. exists (zip_with error_entry candidates outs).
  split; [|split].
  - unfold fetchFromSources.
    by rewrite (try_sources_all_failed _ _ _ _ _ _ _ Hobs Hfail).
  - rewrite length_zip_with, (observe_length _ _ _ _ Hobs). lia.
  - intros i url o Hu Ho.
    assert (Hfo : failed o = true).
    { rewrite forallb_forall in Hfail. apply Hfail.
      apply list_elem_of_In, list_elem_of_lookup. eauto. }
    unfold failed in Hfo. destruct (failure_reason o) as [reason|] eqn:Er; [|done].
    exists reason. split; [done|].
    rewrite lookup_zip_with, Hu, Ho. simpl. unfold error_entry. by rewrite Er.
Qed.

(** ** The cache controller *)

Lemma loadShrine_hit force st :
  cache_hit force st = true → loadShrine force st = (Ok (cache st), st).
Proof. unfold loadShrine. by intros ->. Qed.

(** What a call that does not answer from the cache does, step by step. *)
Lemma loadShrine_miss force st :
  cache_hit force st = false →
  loadShrine force st
  = match fetchFromSources st with
    | (Throw e, st1) => (Throw e, st1)
    | (Ok (url, payload), st1) =>
        let (enriched, st2) :=
          match fetchPerkCatalog st1 with
          | (Ok catalog, st2) =>
              (match enrich_with_catalog payload catalog with
               | Ok r => Ok r
               | Throw _ => enrichPayload payload
               end, st2)
          | (Throw _, st2) => (enrichPayload payload, st2)
          end in
        match enriched with
        | Throw e => (Throw e, st2)
        | Ok (perksWithImages, images) =>
            let cache' :=
              snapshot (toISOString (Date_now (world st2))) url payload
                perksWithImages images in
            (Ok cache', mkState cache' (Date_now (world st)) (world st2) (requests st2))
        end
    end.
Proof. unfold loadShrine. by intros ->. Qed.

(** A call that throws leaves [cache] and [lastFetch] alone, whatever
    threw. *)
Lemma loadShrine_throw_keeps_cache force st e st' :
  loadShrine force st = (Throw e, st') →
  cache st' = cache st ∧ lastFetch st' = lastFetch st.
Proof.
  destruct (cache_hit force st) eqn:Eh.
  { by rewrite loadShrine_hit. }
  rewrite loadShrine_miss by done.
  destruct (fetchFromSources st) as [[[url payload]|e0] st1] eqn:E1;
    apply try_sources_frame in E1 as (Hc1 & Hl1 & _).
  2: { intros [= <- <-]. done. }
  destruct (fetchPerkCatalog st1) as [[catalog|e1] st2] eqn:E2;
    apply try_sources_frame in E2 as (Hc2 & Hl2 & _).
  - destruct (enrich_with_catalog payload catalog) as [[pw imgs]|?].
    + done.
    + destruct (enrichPayload payload) as [[pw imgs]|?]; [done|].
      intros [= <- <-]. split; congruence.
  - destruct (enrichPayload payload) as [[pw imgs]|?]; [done|].
    intros [= <- <-]. split; congruence.
Qed.

(** A call that does not answer from the cache requests the first
    candidate. *)
Lemma loadShrine_miss_requests force st r st' :
  cache_hit force st = false → loadShrine force st = (r, st') →
  ∃ url more, head candidates = Some url ∧ requests st' = requests st ++ url :: more.
Proof.
  intros Eh. rewrite loadShrine_miss by done.
  destruct candidates_nonempty as (url & rest & Hc).
  destruct (fetchFromSources st) as [r1 st1] eqn:E1.
  apply try_sources_frame in E1 as (_ & _ & more1 & Hr1 & Hhd).
  destruct (Hhd url rest Hc) as [more1' ->].
  assert (Hgo : ∀ more2, requests st' = requests st1 ++ more2 →
    ∃ url0 more, head candidates = Some url0 ∧ requests st' = requests st ++ url0 :: more).
  { intros more2 H. exists url, (more1' ++ more2). rewrite Hc. split; [done|].
    by rewrite H, Hr1, <- app_assoc. }
  destruct r1 as [[url1 payload]|e1].
  2: { intros [= <- <-]. apply (Hgo []). by rewrite app_nil_r. }
  destruct (fetchPerkCatalog st1) as [r2 st2] eqn:E2.
  apply try_sources_frame in E2 as (_ & _ & more2 & Hr2 & _).
  destruct r2 as [catalog|e2].
  - destruct (enrich_with_catalog payload catalog) as [[pw imgs]|?].
    + intros [= <- <-]. apply (Hgo more2), Hr2.
    + destruct (enrichPayload payload) as [[pw imgs]|?];
        intros [= <- <-]; apply (Hgo more2), Hr2.
  - destruct (enrichPayload payload) as [[pw imgs]|?];
      intros [= <- <-]; apply (Hgo more2), Hr2.
Qed.

(** C4. With a snapshot in the cache, a call during which every shrine
    source fails leaves [cache] and [lastFetch] as they were, and unless
    it answered from the cache it throws the error of [fetchFromSources]. *)
Theorem loadShrine_failure_keeps_cache force st e st1 :
  truthy (cache st) = true →
  fetchFromSources st = (Throw e, st1) →
  ∃ r st', loadShrine force st = (r, st')
    ∧ cache st' = cache st ∧ lastFetch st' = lastFetch st
    ∧ (cache_hit force st = false → r = Throw e).
Proof.
  intros _ Hf. destruct (cache_hit force st) eqn:Eh.
  - exists (Ok (cache st)), st. by rewrite loadShrine_hit.
  - exists (Throw e), st1. rewrite loadShrine_miss, Hf by done.
    apply try_sources_frame in Hf as (Hc & Hl & _). done.
Qed.

(** C5, amended. The time that counts is [lastFetch], the clock reading
    taken when the last successful load started. A call without [force],
    with a snapshot in the cache and less than [CACHE_TIME] elapsed since
    [lastFetch], returns the snapshot and leaves the state, the list of
    requests included, untouched; so does a call at
    [lastFetch + CACHE_TIME - 1], while a call at
    [lastFetch + CACHE_TIME + 1] requests the first candidate. *)
Theorem loadShrine_cache_hit st :
  truthy (cache st) = true →
  (Date_now (world st) - lastFetch st < CACHE_TIME →
   loadShrine false st = (Ok (cache st), st))
  ∧ (Date_now (world st) = lastFetch st + CACHE_TIME - 1 →
     loadShrine false st = (Ok (cache st), st))
  ∧ (Date_now (world st) = lastFetch st + CACHE_TIME + 1 →
     ∃ r st' url more,
       loadShrine false st = (r, st')
       ∧ head candidates = Some url
       ∧ requests st' = requests st ++ url :: more).
Proof.
  intros Hc.
  assert (Hhit : Date_now (world st) - lastFetch st < CACHE_TIME →
                 loadShrine false st = (Ok (cache st), st)).
  { intros Ht. apply loadShrine_hit. unfold cache_hit. rewrite Hc. simpl.
    by apply Z.ltb_lt. }
  split; [done|]. split.
  - intros Ht. apply Hhit. lia.
  - intros Ht. destruct (loadShrine false st) as [r st'] eqn:El.
    destruct (loadShrine_miss_requests false st r st') as (url & more & ? & ?);
      [|done|by exists r, st', url, more].
    unfold cache_hit. rewrite Hc. simpl. apply Z.ltb_ge. lia.
Qed.

(** What does hold when a shrine source has answered and the catalog
    fetch throws: the call does what image-only enrichment of the raw
    payload does. It stores and returns a snapshot holding the two lists
    of [enrichPayload payload], and it throws exactly when [enrichPayload]
    itself throws, never with the catalog's error. For the payload
    [{perks: [{id: "x", image: "http://full/url.png"}]}] the snapshot's
    [perksWithImages] is the payload's perk list. *)
Lemma loadShrine_catalog_failure force st url payload st1 e st2 :
  cache_hit force st = false →
  fetchFromSources st = (Ok (url, payload), st1) →
  fetchPerkCatalog st1 = (Throw e, st2) →
  (∀ perksWithImages images,
     enrichPayload payload = Ok (perksWithImages, images) →
     let cache' := snapshot (toISOString (Date_now (world st2))) url payload
                     perksWithImages images in
     loadShrine force st
     = (Ok cache', mkState cache' (Date_now (world st)) (world st2) (requests st2)))
  ∧ (∀ e', enrichPayload payload = Throw e' → loadShrine force st = (Throw e', st2))
  ∧ (payload = Scenario.payload_x →
     ∃ cache' st', loadShrine force st = (Ok cache', st')
       ∧ cache st' = cache'
       ∧ get cache' "perksWithImages" = Ok (get_opt payload "perks")).
Proof.
  intros Eh Hf Hc. rewrite loadShrine_miss, Hf, Hc by done.
  split; [|split].
  - by intros pw imgs ->.
  - by intros e' ->.
  - intros ->. by do 2 eexists.
Qed.

End Fetch.

(** ** Concrete runs *)

Section Runs.

Import Scenario.

Lemma fetchFromSources_first_success_witness :
  fetchFromSources (fetch degraded) [] (cold t0)
  = (Ok (mirror_url, payload_x), mkState VNull 0 (t0 + 500) [shrine_url; mirror_url]).
Proof.
  apply (fetchFromSources_first_success (fetch degraded) [] (cold t0)
           [shrine_url] mirror_url []
           [Response 503 (BodyError "Unexpected token < in JSON")]
           (mkState VNull 0 (t0 + 250) [shrine_url]) 200 payload_x).
  - reflexivity.
  - reflexivity.
  - reflexivity.
  - reflexivity.
  - lia.
Defined.

Lemma fetchFromSources_all_failed_witness :
  ∃ entries,
    fetchFromSources (fetch outage) [] (cold t0)
    = (Throw (Error ("All shrine sources failed: " +:+ join " | " entries)),
       mkState VNull 0 (t0 + 500) [shrine_url; mirror_url])
    ∧ length entries = 2%nat
    ∧ entries !! 0%nat = Some (shrine_url +:+ " -> 503")
    ∧ entries !! 1%nat = Some (mirror_url +:+ " -> Unexpected end of JSON input").
Proof.
  destruct (fetchFromSources_all_failed (fetch outage) [] (cold t0)
              [Response 503 (Json VNull);
               Response 200 (BodyError "Unexpected end of JSON input")]
              (mkState VNull 0 (t0 + 500) [shrine_url; mirror_url])
              eq_refl eq_refl) as (entries & Hthrow & Hlen & Hentry).
  exists entries. split; [exact Hthrow|]. split; [exact Hlen|]. split.
  - destruct (Hentry 0%nat shrine_url _ eq_refl eq_refl) as (reason & [= <-] & H).
    exact H.
  - destruct (Hentry 1%nat mirror_url _ eq_refl eq_refl) as (reason & [= <-] & H).
    exact H.
Defined.

Lemma loadShrine_failure_keeps_cache_witness :
  ∃ e st',
    loadShrine (fetch outage) Date_now [] true (at_time (t0 + 1000) warm)
    = (Throw e, st')
    ∧ cache st' = cache warm ∧ lastFetch st' = t0.
Proof.
  destruct (loadShrine_failure_keeps_cache (fetch outage) Date_now [] true
              (at_time (t0 + 1000) warm) _ _ eq_refl eq_refl)
    as (r & st' & Hl & Hc & Hf & Hr).
  rewrite (Hr eq_refl) in Hl. eauto.
Defined.

Lemma loadShrine_cache_hit_witness :
  loadShrine (fetch outage) Date_now [] false (at_time (t0 + 5) warm)
  = (Ok (cache warm), at_time (t0 + 5) warm)
  ∧ loadShrine (fetch outage) Date_now [] false (at_time (t0 + CACHE_TIME - 1) warm)
    = (Ok (cache warm), at_time (t0 + CACHE_TIME - 1) warm)
  ∧ ∃ r st' more,
      loadShrine (fetch outage) Date_now [] false (at_time (t0 + CACHE_TIME + 1) warm)
      = (r, st')
      ∧ requests st' = requests warm ++ shrine_url :: more.
Proof.
  split; [|split].
  - destruct (loadShrine_cache_hit (fetch outage) Date_now []
                (at_time (t0 + 5) warm) eq_refl) as (H & _ & _).
    apply H. vm_compute. reflexivity.
  - destruct (loadShrine_cache_hit (fetch outage) Date_now []
                (at_time (t0 + CACHE_TIME - 1) warm) eq_refl) as (_ & H & _).
    apply H. vm_compute. reflexivity.
  - destruct (loadShrine_cache_hit (fetch outage) Date_now []
                (at_time (t0 + CACHE_TIME + 1) warm) eq_refl) as (_ & _ & H).
    destruct H as (r & st' & url & more & Hl & [= <-] & Hr);
      [vm_compute; reflexivity|]. eauto.
Defined.

(** C5, as claimed, fails for the snapshot's [fetchedAt]: that field is
    a second clock reading, taken after the requests have been answered.
    The load started at [t0] leaves [lastFetch = t0] and a snapshot whose
    [fetchedAt] is [t0 + 750]; a call one millisecond before [fetchedAt +
    CACHE_TIME] does not answer from the cache but requests the sources
    again. *)
Lemma read_before_fetchedAt_plus_ttl_refreshes :
  lastFetch warm = t0
  ∧ get (cache warm) "fetchedAt" = Ok (VStr (toISOString (t0 + 750)))
  ∧ ∃ r st',
      loadShrine (fetch degraded) Date_now [] false
        (at_time (t0 + 750 + CACHE_TIME - 1) warm) = (r, st')
      ∧ r ≠ Ok (cache warm)
      ∧ requests st' = requests warm ++ [shrine_url; mirror_url; catalog_url].
Proof.
  split; [vm_compute; reflexivity|]. split; [vm_compute; reflexivity|].
  do 2 eexists. split; [vm_compute; reflexivity|].
  split; [vm_compute; discriminate|vm_compute; reflexivity].
Qed.

Lemma loadShrine_catalog_failure_witness :
  ∃ cache' st',
    loadShrine (fetch degraded) Date_now [] true (cold t0) = (Ok cache', st')
    ∧ cache st' = cache'
    ∧ get cache' "perksWithImages" = Ok (VArr [perk_x]).
Proof.
  destruct (loadShrine_catalog_failure (fetch degraded) Date_now [] true (cold t0)
              mirror_url payload_x _ _ _ eq_refl eq_refl eq_refl)
    as (_ & _ & H).
  exact (H eq_refl).
Defined.

(** C7. A shrine source answers 200 with the payload [{perks: [null]}]
    and the catalog fetch throws: the call does not degrade to a snapshot
    but throws, and the cache stays empty. The [catch] block runs
    [enrichPayload] on the raw payload, where [extractImage] lets the
    [null] perk through and the [images] callback then reads [p.name]
    from it. *)
Theorem loadShrine_catalog_failure_null_perk :
  fetchFromSources (fetch null_perk_served) [] (cold t0)
  = (Ok (shrine_url, payload_null), mkState VNull 0 (t0 + 250) [shrine_url])
  ∧ fetchPerkCatalog (fetch null_perk_served) (mkState VNull 0 (t0 + 250) [shrine_url])
    = (Throw (Error ("All perk catalog sources failed: " +:+ catalog_url
                     +:+ " -> getaddrinfo ENOTFOUND")),
       mkState VNull 0 (t0 + 500) [shrine_url; catalog_url])
  ∧ loadShrine (fetch null_perk_served) Date_now [] true (cold t0)
    = (Throw (TypeError "cannot read property name"),
       mkState VNull 0 (t0 + 500) [shrine_url; catalog_url]).
Proof. split; [|split]; vm_compute; reflexivity. Qed.

End Runs.

(** * Further properties *)

(** ** The operator's source list *)

Section Sources.

Implicit Types (s piece : string) (c : ascii).

Lemma nonempty_spec s : nonempty s = true ↔ s ≠ "".
Proof.
  unfold nonempty. destruct (String.eqb s "") eqn:E; simpl.
  - apply String.eqb_eq in E. split; [done|congruence].
  - apply String.eqb_neq in E. done.
Qed.

Lemma trimStart_all_space s : all_space s = true → trimStart s = "".
Proof.
  induction s as [|c s IH]; simpl; [done|].
  intros [Hc Hs]%andb_true_iff. rewrite Hc. auto.
Qed.

(** [trimStart] leaves the empty string or a string that starts with a
    character that is not white space. *)
Lemma trimStart_head s :
  trimStart s = "" ∨ ∃ c r, trimStart s = String c r ∧ is_space c = false.
Proof.
  induction s as [|c s IH]; simpl; [by left|].
  destruct (is_space c) eqn:E; [done|]. right. eauto.
Qed.

Lemma trimStart_id c r : is_space c = false → trimStart (String c r) = String c r.
Proof. simpl. by intros ->. Qed.

Lemma trimEnd_head c r :
  is_space c = false → ∃ r', trimEnd (String c r) = String c r'.
Proof. intros E. simpl. rewrite E. destruct (trimEnd r); eauto. Qed.

Lemma trimEnd_idemp s : trimEnd (trimEnd s) = trimEnd s.
Proof.
  induction s as [|c s IH]; simpl; [done|].
  destruct (trimEnd s) as [|c' r] eqn:E.
  - destruct (is_space c) eqn:Ec; simpl; [done|]. by rewrite Ec.
  - simpl in *. by rewrite IH.
Qed.

Lemma trim_idemp s : trim (trim s) = trim s.
Proof.
  unfold trim. destruct (trimStart_head s) as [->|(c & r & -> & Hc)]; [done|].
  destruct (trimEnd_head c r Hc) as [r' E]. rewrite E.
  rewrite trimStart_id by done. by rewrite <- E, trimEnd_idemp.
Qed.

Lemma trimStart_no_comma s : has_comma s = false → has_comma (trimStart s) = false.
Proof.
  induction s as [|c s IH]; simpl; [done|].
  intros [Hc Hs]%orb_false_iff. destruct (is_space c); [auto|].
  simpl. by rewrite Hc, Hs.
Qed.

Lemma trimEnd_no_comma s : has_comma s = false → has_comma (trimEnd s) = false.
Proof.
  induction s as [|c s IH]; simpl; [done|].
  intros [Hc Hs]%orb_false_iff. specialize (IH Hs).
  destruct (trimEnd s) as [|c' r].
  - destruct (is_space c); simpl; [done|]. by rewrite Hc.
  - simpl in *. by rewrite Hc, IH.
Qed.

Lemma split_comma_no_comma s :
  Forall (λ piece, has_comma piece = false) (split_comma s).
Proof.
  induction s as [|c s IH]; simpl; [by repeat constructor|].
  destruct (Ascii.eqb c ",") eqn:E; [by constructor|].
  destruct (split_comma s) as [|piece pieces]; [repeat constructor; simpl; by rewrite E|].
  inversion IH as [|? ? Hp Hps]; subst. constructor; [|done]. simpl. by rewrite E, Hp.
Qed.

Lemma split_comma_piece s : has_comma s = false → split_comma s = [s].
Proof.
  induction s as [|c s IH]; simpl; [done|].
  intros [Hc Hs]%orb_false_iff. by rewrite Hc, IH.
Qed.

Lemma split_comma_app s rest :
  has_comma s = false →
  split_comma (s +:+ String "," rest) = s :: split_comma rest.
Proof.
  induction s as [|c s IH]; simpl; [done|].
  intros [Hc Hs]%orb_false_iff. by rewrite Hc, IH.
Qed.

Lemma split_comma_join (urls : list string) :
  Forall (λ s, has_comma s = false) urls →
  split_comma (join "," urls) = match urls with [] => [""] | _ => urls end.
Proof.
  induction 1 as [|s rest Hs Hrest IH]; [done|].
  destruct rest as [|s' rest].
  - simpl. by apply split_comma_piece.
  - change (join "," (s :: s' :: rest)) with (s +:+ String "," (join "," (s' :: rest))).
    by rewrite split_comma_app, IH.
Qed.

Lemma split_comma_blank s :
  blank s = true → Forall (λ piece, all_space piece = true) (split_comma s).
Proof.
  induction s as [|c s IH]; simpl; [by repeat constructor|].
  intros [Hc Hs]%andb_true_iff. specialize (IH Hs).
  destruct (Ascii.eqb c ",") eqn:E; [by constructor|].
  rewrite orb_false_r in Hc.
  destruct (split_comma s) as [|piece pieces]; [repeat constructor; simpl; by rewrite Hc|].
  inversion IH as [|? ? Hp Hps]; subst. constructor; [|done]. simpl. by rewrite Hc, Hp.
Qed.

(** X1. Every source [parse_sources] keeps is non-empty, contains no
    comma, and has no white space at either end. *)
Theorem parse_sources_clean (SHRINE_SOURCE : option string) :
  Forall (λ s, s ≠ "" ∧ has_comma s = false ∧ trim s = s)
    (parse_sources SHRINE_SOURCE).
Proof.
  unfold parse_sources. apply Forall_forall. intros s Hs.
  apply list_elem_of_In, filter_In in Hs as [Hin Hne].
  apply in_map_iff in Hin as (piece & <- & Hin).
  split; [by apply nonempty_spec|]. split; [|apply trim_idemp].
  pose proof (split_comma_no_comma (default "" SHRINE_SOURCE)) as Hall.
  rewrite Forall_forall in Hall.
  apply trimEnd_no_comma, trimStart_no_comma, Hall. by apply list_elem_of_In.
Qed.

(** X2. A list of sources, each non-empty, without comma and without
    white space at its ends, is read back as it is from its
    comma-separated form. *)
Theorem parse_sources_join (urls : list string) :
  Forall (λ s, clean_source s = true) urls →
  parse_sources (Some (join "," urls)) = urls.
Proof.
  intros Hall. unfold parse_sources. simpl default.
  rewrite split_comma_join.
  2: { eapply Forall_impl; [exact Hall|]. unfold clean_source. intros s H.
       apply andb_true_iff in H as [[_ H]%andb_true_iff _]. by apply negb_true_iff. }
  destruct urls as [|s0 urls0]; [done|].
  induction Hall as [|s rest Hs _ IH]; [done|].
  unfold clean_source in Hs.
  apply andb_true_iff in Hs as [[Hne _]%andb_true_iff Ht%String.eqb_eq].
  cbn [map List.filter]. rewrite Ht, Hne. by rewrite IH.
Qed.

Lemma parse_sources_join_witness :
  parse_sources (Some "https://a.example/shrine,https://b.example/x?y=1")
  = ["https://a.example/shrine"; "https://b.example/x?y=1"].
Proof.
  apply (parse_sources_join ["https://a.example/shrine"; "https://b.example/x?y=1"]).
  repeat constructor.
Defined.

(** X3. When the variable is unset, or holds nothing but commas and
    white space, no source is kept and the built-in list is used. *)
Theorem parse_sources_blank (SHRINE_SOURCE : option string) :
  blank (default "" SHRINE_SOURCE) = true →
  parse_sources SHRINE_SOURCE = []
  ∧ candidates (parse_sources SHRINE_SOURCE) = DEFAULT_SOURCES.
Proof.
  intros Hb. assert (parse_sources SHRINE_SOURCE = []) as ->; [|done].
  unfold parse_sources. apply split_comma_blank in Hb.
  induction Hb as [|piece pieces Hp _ IH]; [done|].
  cbn [map List.filter]. unfold trim at 1. by rewrite (trimStart_all_space _ Hp).
Qed.

Lemma parse_sources_blank_witness :
  parse_sources None = [] ∧ candidates (parse_sources None) = DEFAULT_SOURCES
  ∧ parse_sources (Some " , ,, ") = [].
Proof.
  split; [|split].
  - apply (parse_sources_blank None). reflexivity.
  - apply (parse_sources_blank None). reflexivity.
  - apply (parse_sources_blank (Some " , ,, ")). reflexivity.
Defined.

End Sources.

(** ** Images *)

Section Images.

Implicit Types (perk p image : value) (fields : list (string * value)).



Lemma set_set k v fields : set k v (set k v fields) = set k v fields.
Proof.
  induction fields as [|[k' v'] rest IH]; simpl.
  - by rewrite String.eqb_refl.
  - destruct (String.eqb k k') eqn:E; simpl; rewrite ?String.eqb_refl, ?E; [done|].
    by rewrite IH.
Qed.

(** Setting [image] to the extracted image does not change what is
    extracted. *)
Lemma extractImage_with_image fields :
  truthy (extractImage (VObj fields)) = true →
  extractImage (VObj (set "image" (extractImage (VObj fields)) fields))
  = extractImage (VObj fields).
Proof.
  intros Ht. set (img := extractImage (VObj fields)) in *.
  unfold extractImage in *. simpl in *. unfold find_truthy in *. simpl in *.
  rewrite !assoc_set_ne by done. rewrite assoc_set_eq. simpl.
  destruct (truthy (default VUndef (assoc "icon" fields))) eqn:E1; [done|].
  destruct (truthy (default VUndef (assoc "iconUrl" fields))) eqn:E2; [done|].
  destruct (truthy (default VUndef (assoc "iconPath" fields))) eqn:E3; [done|].
  rewrite Ht. simpl. rewrite or_truthy_l by done.
  subst img. simpl.
  destruct (truthy (default VUndef (assoc "image" fields))) eqn:E4; [done|].
  destruct (truthy (default VUndef (assoc "perkImage" fields))) eqn:E5; [done|].
  destruct (truthy (default VUndef (assoc "perkIcon" fields))) eqn:E6; [done|].
  done.
Qed.

(** Only an object has an image to extract. *)
Lemma extractImage_truthy_object perk :
  truthy (extractImage perk) = true → ∃ fields, perk = VObj fields.
Proof.
  unfold extractImage.
  destruct perk as [| |b|n|s|l|fields]; simpl; rewrite ?orb_true_r; try done.
  eauto.
Qed.

Lemma with_image_idemp perk : with_image (with_image perk) = with_image perk.
Proof.
  destruct (truthy (extractImage perk)) eqn:Et.
  - destruct (extractImage_truthy_object perk Et) as [fields ->].
    assert (E : with_image (VObj fields)
                = VObj (set "image" (extractImage (VObj fields)) fields)).
    { unfold with_image. by rewrite Et. }
    rewrite E. unfold with_image. cbv zeta. simpl spread.
    rewrite extractImage_with_image, Et by done. by rewrite set_set.
  - assert (E : with_image perk = perk).
    { unfold with_image. by rewrite Et. }
    by rewrite !E.
Qed.

(** X5. Enriching what [enrichPayload] returned changes nothing: the
    same [perksWithImages] and the same [images] come back. *)
Theorem enrichPayload_idempotent payload perksWithImages images :
  enrichPayload payload = Ok (perksWithImages, images) →
  enrichPayload (VObj [("perks", VArr perksWithImages)]) = Ok (perksWithImages, images).
Proof.
  unfold enrichPayload. simpl.
  set (perks := match get_opt payload "perks" with VArr l => l | _ => [] end).
  destruct (mapM image_record (map with_image perks)) as [records|] eqn:E; [|done].
  simpl. intros [= <- <-].
  assert (map with_image (map with_image perks) = map with_image perks) as ->.
  { rewrite map_map. apply map_ext. intros. apply with_image_idemp. }
  by rewrite E.
Qed.

Lemma enrichPayload_idempotent_witness :
  let enriched := VObj [("id", VStr "x"); ("perkIcon", VStr "/a.png");
                        ("image", VStr "/a.png")] in
  enrichPayload (VObj [("perks", VArr [enriched])])
  = Ok ([enriched], [VObj [("name", VStr "x"); ("image", VStr "/a.png")]]).
Proof.
  apply (enrichPayload_idempotent
           (VObj [("perks", VArr [VObj [("id", VStr "x"); ("perkIcon", VStr "/a.png")]])])).
  reflexivity.
Defined.

End Images.

(** ** The catalog and its index *)

Section Catalog.

Implicit Types (perk entry found merged : value) (byId : gmap string value).
Implicit Types (perks catalog out : list value) (key k j : string).
Implicit Types (fields : list (string * value)).

Lemma assoc_absent k fields : k ∉ fields.*1 → assoc k fields = None.
Proof.
  induction fields as [|[k' v] rest IH]; simpl; [done|].
  intros Hk. destruct (String.eqb k k') eqn:E.
  - apply String.eqb_eq in E. subst. exfalso. apply Hk. apply elem_of_cons. by left.
  - apply IH. intros Hin. apply Hk. apply elem_of_cons. by right.
Qed.

(** Copying properties one by one onto an object: the copied ones win. *)
Lemma assoc_fold_set j (l acc : list (string * value)) :
  NoDup l.*1 →
  assoc j (fold_left (λ acc '(k, x), set k x acc) l acc)
  = match assoc j l with Some x => Some x | None => assoc j acc end.
Proof.
  revert acc. induction l as [|[k x] rest IH]; intros acc Hnd; simpl; [done|].
  apply NoDup_cons in Hnd as [Hk Hnd]. rewrite IH by done.
  destruct (String.eqb j k) eqn:E.
  - apply String.eqb_eq in E. subst j.
    by rewrite (assoc_absent k rest), assoc_set_eq.
  - apply String.eqb_neq in E. rewrite assoc_set_ne by done. done.
Qed.

(** X6. A catalog payload that is a keyed object without a [data] array
    gives one entry per key, in key order; an entry has the properties of
    the key's value, and its [id] is the key unless the value brings an
    [id] of its own. *)
Theorem catalog_list_of_keyed_object fields :
  (∀ data, assoc "data" fields ≠ Some (VArr data)) →
  length (catalog_list (VObj fields)) = length fields
  ∧ ∀ i k v, fields !! i = Some (k, v) → NoDup (spread v).*1 →
      ∃ props, catalog_list (VObj fields) !! i = Some (VObj props)
        ∧ ∀ j, assoc j props
               = match assoc j (spread v) with
                 | Some x => Some x
                 | None => if String.eqb j "id" then Some (VStr k) else None
                 end.
Proof.
  intros Hdata.
  assert (E : catalog_list (VObj fields)
              = map (λ '(id, v), VObj (fold_left (λ acc '(k, x), set k x acc)
                                         (spread v) [("id", VStr id)])) fields).
  { unfold catalog_list. simpl.
    destruct (assoc "data" fields) as [[| |b|n|s|data|o]|] eqn:Ed; try done.
    by destruct (Hdata data). }
  rewrite E. split; [by rewrite length_map|].
  intros i k v Hi Hnd. eexists. split.
  - by rewrite list_lookup_fmap, Hi.
  - intros j. rewrite assoc_fold_set by done. simpl.
    by destruct (assoc j (spread v)).
Qed.

Lemma catalog_list_of_keyed_object_witness :
  catalog_list (VObj [("K1", VObj [("name", VStr "A")]);
                      ("K2", VObj [("id", VStr "other"); ("name", VStr "B")])])
  = [VObj [("id", VStr "K1"); ("name", VStr "A")];
     VObj [("id", VStr "other"); ("name", VStr "B")]]
  ∧ length (catalog_list (VObj [("K1", VObj [("name", VStr "A")])])) = 1%nat.
Proof.
  split; [reflexivity|].
  apply (catalog_list_of_keyed_object [("K1", VObj [("name", VStr "A")])]).
  intros data. discriminate.
Defined.

Lemma index_entry_key byId entry :
  index_entry byId entry
  = if negb (truthy entry) then Ok byId
    else let* key := entry_key entry in
         if nonempty key then Ok (<[key := entry]> byId) else Ok byId.
Proof.
  unfold index_entry, entry_key. destruct (truthy entry) eqn:Et; simpl; [|done].
  rewrite !(get_defined entry) by (by destruct entry). simpl.
  by destruct (normalized_key _).
Qed.

Lemma index_catalog_app byId l1 l2 :
  index_catalog byId (l1 ++ l2)
  = let* byId1 := index_catalog byId l1 in index_catalog byId1 l2.
Proof.
  revert byId. induction l1 as [|entry rest IH]; intros byId; simpl; [done|].
  destruct (index_entry byId entry); simpl; [apply IH|done].
Qed.

(** Entries filed under other keys leave a key's slot alone. *)
Lemma index_catalog_other catalog byId byId' k :
  index_catalog byId catalog = Ok byId' →
  Forall (λ entry, truthy entry = true → entry_key entry ≠ Ok k) catalog →
  byId' !! k = byId !! k.
Proof.
  revert byId. induction catalog as [|entry rest IH]; intros byId; simpl.
  - by intros [= <-].
  - rewrite index_entry_key. intros H Hall.
    apply Forall_cons in Hall as [He Hrest].
    destruct (truthy entry) eqn:Et; simpl in H; [|by apply IH].
    destruct (entry_key entry) as [key|] eqn:Ek; simpl in H; [|done].
    destruct (nonempty key); [|by apply IH].
    rewrite (IH _ H Hrest). apply lookup_insert_ne. intros ->. by apply He.
Qed.

(** X7. Whatever the index holds under a key is an entry of the
    catalog that passed the falsy test and whose own key, not blank, is
    that key. *)
Theorem index_catalog_sound catalog byId k entry :
  index_catalog ∅ catalog = Ok byId → byId !! k = Some entry →
  entry ∈ catalog ∧ truthy entry = true ∧ entry_key entry = Ok k ∧ k ≠ "".
Proof.
  assert (Hgen : ∀ byId0,
    index_catalog byId0 catalog = Ok byId → byId !! k = Some entry →
    byId0 !! k = Some entry
    ∨ (entry ∈ catalog ∧ truthy entry = true ∧ entry_key entry = Ok k ∧ k ≠ "")).
  { induction catalog as [|e rest IH]; intros byId0; simpl.
    - intros [= <-]. by left.
    - rewrite index_entry_key. intros H Hk.
      assert (Hrest : ∀ b, index_catalog b rest = Ok byId →
                b !! k = Some entry
                ∨ (entry ∈ e :: rest ∧ truthy entry = true
                   ∧ entry_key entry = Ok k ∧ k ≠ "")).
      { intros b Hb. destruct (IH b Hb Hk) as [?|(? & ? & ? & ?)]; [by left|right].
        split; [apply elem_of_cons; by right|done]. }
      destruct (truthy e) eqn:Et; simpl in H; [|by apply Hrest].
      destruct (entry_key e) as [key|] eqn:Ek; simpl in H; [|done].
      destruct (nonempty key) eqn:En; [|by apply Hrest].
      destruct (Hrest _ H) as [Hl|?]; [|by right].
      destruct (decide (key = k)) as [->|Hne].
      + rewrite lookup_insert_eq in Hl. injection Hl as ->. right.
        split; [apply elem_of_cons; by left|]. by rewrite nonempty_spec in En.
      + rewrite lookup_insert_ne in Hl by done. by left. }
  intros H Hk. by destruct (Hgen ∅ H Hk) as [?|?].
Qed.

Lemma index_catalog_sound_witness :
  let entry := VObj [("perkId", VStr "K1"); ("name", VStr "A")] in
  entry_key entry = Ok "k1".
Proof.
  intros entry.
  apply (index_catalog_sound [VNull; entry] (<["k1" := entry]> ∅) "k1" entry eq_refl).
  apply lookup_insert_eq.
Defined.

(** X8. Of several catalog entries with the same key the last one is
    the one the index holds. *)
Theorem index_catalog_last_wins pre entry post byId k :
  index_catalog ∅ (pre ++ entry :: post) = Ok byId →
  truthy entry = true → entry_key entry = Ok k → k ≠ "" →
  Forall (λ later, truthy later = true → entry_key later ≠ Ok k) post →
  byId !! k = Some entry.
Proof.
  intros H Ht Hk Hne Hpost. rewrite index_catalog_app in H.
  destruct (index_catalog ∅ pre) as [byId1|]; simpl in H; [|done].
  rewrite index_entry_key, Ht, Hk in H. simpl in H.
  apply nonempty_spec in Hne. rewrite Hne in H.
  rewrite (index_catalog_other _ _ _ k H Hpost). apply lookup_insert_eq.
Qed.

Lemma index_catalog_last_wins_witness :
  ∃ byId,
    index_catalog ∅ [VObj [("id", VStr "k1"); ("name", VStr "old")];
                     VObj [("id", VStr "K1"); ("name", VStr "new")];
                     VObj [("id", VStr "k2")]] = Ok byId
    ∧ byId !! "k1" = Some (VObj [("id", VStr "K1"); ("name", VStr "new")]).
Proof.
  eexists. split; [reflexivity|].
  apply (index_catalog_last_wins [VObj [("id", VStr "k1"); ("name", VStr "old")]]
           (VObj [("id", VStr "K1"); ("name", VStr "new")])
           [VObj [("id", VStr "k2")]]); try done.
  repeat constructor. intros _. discriminate.
Defined.

End Catalog.

(** ** Merged perks *)

Section MergedPerks.

Implicit Types (perk found merged image : value) (byId : gmap string value).
Implicit Types (perks catalog out : list value) (key : string).
Implicit Types (fields : list (string * value)).

(** X9. On well-formed input (readable shrine perks with a primitive
    [id]; catalog entries with primitive key fields and a string or no
    image) the merge returns, with one perk per shrine perk, in order, each
    with the [id] it came with. *)
Theorem mapPerksWithCatalog_well_formed perks catalog :
  Forall (λ perk, wf_perk perk = true) perks →
  Forall (λ entry, wf_entry entry = true) catalog →
  ∃ out,
    mapPerksWithCatalog (VArr perks) catalog = Ok out
    ∧ length out = length perks
    ∧ ∀ i perk, perks !! i = Some perk →
        ∃ merged, out !! i = Some merged ∧ get_opt merged "id" = get_opt perk "id".
Proof.
  intros Hp Hc. destruct (mapPerksWithCatalog_total perks catalog Hp Hc) as [out Ho].
  exists out. split; [done|].
  destruct (mapPerksWithCatalog_preserves perks catalog out Ho)
    as (Hlen & byId & Hidx & Hall).
  split; [done|]. intros i perk Hi.
  assert (Hwf : wf_perk perk = true).
  { rewrite Forall_forall in Hp. apply Hp. apply list_elem_of_lookup. eauto. }
  assert (Hid : get perk "id" = Ok (get_opt perk "id")).
  { apply get_defined; by destruct perk. }
  destruct (normalized_key_primitive (get_opt perk "id")) as [key Hkey].
  { by destruct perk. }
  destruct (Hall i perk _ key Hi Hid Hkey) as (merged & Hm & Hmid & _).
  exists merged. split; [done|]. symmetry. by apply get_ok_opt.
Qed.

Lemma mapPerksWithCatalog_well_formed_witness :
  ∃ out,
    mapPerksWithCatalog
      (VArr [VObj [("id", VNum 7)]; VObj [("id", VStr "K32P02")]; VStr "stray"])
      [VNull; VObj [("perkId", VNum 7); ("name", VStr "Seven"); ("icon", VStr "7.png")]]
    = Ok out
    ∧ length out = 3%nat.
Proof.
  destruct (mapPerksWithCatalog_well_formed
              [VObj [("id", VNum 7)]; VObj [("id", VStr "K32P02")]; VStr "stray"]
              [VNull; VObj [("perkId", VNum 7); ("name", VStr "Seven");
                            ("icon", VStr "7.png")]])
    as (out & Ho & Hlen & _); [by repeat constructor..|].
  eauto.
Defined.

(** X10. A perk that is rebuilt for its override alone, without a
    catalog entry, gets the table's name and keeps its description, its
    image and every other property, except that [role] and [character] are
    set to [undefined] whatever the perk had there. *)
Theorem merge_perk_override_only byId perk id key n :
  get perk "id" = Ok id → normalized_key id = Ok key →
  lookup_name key PERK_OVERRIDES = Some n → byId !! key = None →
  ∃ fields,
    merge_perk byId perk = Ok (VObj fields)
    ∧ assoc "name" fields = Some (VStr n)
    ∧ assoc "role" fields = Some VUndef
    ∧ assoc "character" fields = Some VUndef
    ∧ assoc "description" fields = Some (get_opt perk "description")
    ∧ assoc "image" fields = Some (get_opt perk "image")
    ∧ ∀ k, k ≠ "name" → k ≠ "description" → k ≠ "role" → k ≠ "character" →
           k ≠ "image" → assoc k fields = assoc k (spread perk).
Proof.
  intros Hid Hkey Htab Hnone.
  destruct (override_name_table _ _ Htab) as [Hov Hn].
  unfold merge_perk. rewrite Hid. simpl. rewrite Hkey. simpl.
  rewrite Hnone, Hov, Hn. simpl.
  rewrite !(get_ok_other _ _ _ _ Hid). simpl.
  eexists. split; [reflexivity|].
  repeat split; rewrite ?assoc_set_ne by done;
    try (rewrite assoc_set_eq; f_equal).
  - by rewrite !(or_truthy_l (VStr n)).
  - intros k ? ? ? ? ?. by rewrite !assoc_set_ne.
Qed.

Lemma merge_perk_override_only_witness :
  ∃ fields,
    merge_perk ∅ (VObj [("id", VStr "k28p02"); ("role", VStr "killer"); ("tier", VNum 3)])
    = Ok (VObj fields)
    ∧ assoc "role" fields = Some VUndef
    ∧ assoc "tier" fields = Some (VNum 3).
Proof.
  destruct (merge_perk_override_only ∅
              (VObj [("id", VStr "k28p02"); ("role", VStr "killer"); ("tier", VNum 3)])
              (VStr "k28p02") "k28p02" "Darkness Revealed"
              eq_refl eq_refl eq_refl (lookup_empty _))
    as (fields & Hm & _ & Hrole & _ & _ & _ & Htier).
  exists fields. split; [done|]. split; [done|]. by apply Htier.
Defined.

(** With an icon of its own the perk's image is that icon. *)
Lemma extractImage_own_icon fields :
  truthy (own_icon (VObj fields)) = true →
  extractImage (VObj fields) = own_icon (VObj fields).
Proof.
  unfold extractImage, own_icon, find_truthy. simpl.
  destruct (truthy (default VUndef (assoc "icon" fields))) eqn:E1; simpl.
  { intros _. by apply or_truthy_l. }
  destruct (truthy (default VUndef (assoc "iconUrl" fields))) eqn:E2; simpl.
  { intros _. by apply or_truthy_l. }
  destruct (truthy (default VUndef (assoc "iconPath" fields))) eqn:E3; simpl.
  { intros _. by apply or_truthy_l. }
  done.
Qed.

(** Without one, it is the [image] property when that is truthy. *)
Lemma extractImage_image fields image :
  truthy (own_icon (VObj fields)) = false →
  assoc "image" fields = Some image → truthy image = true →
  extractImage (VObj fields) = image.
Proof.
  unfold extractImage, own_icon, find_truthy. simpl. intros Hown Hi Ht.
  destruct (truthy (default VUndef (assoc "icon" fields))) eqn:E1; simpl in *.
  { by rewrite E1 in Hown. }
  destruct (truthy (default VUndef (assoc "iconUrl" fields))) eqn:E2; simpl in *.
  { by rewrite E2 in Hown. }
  destruct (truthy (default VUndef (assoc "iconPath" fields))) eqn:E3; simpl in *.
  { by rewrite E3 in Hown. }
  rewrite Hi. simpl. rewrite Ht. simpl. by apply or_truthy_l.
Qed.

Lemma with_image_image fields :
  truthy (extractImage (VObj fields)) = true →
  get_opt (with_image (VObj fields)) "image" = extractImage (VObj fields).
Proof.
  intros Ht. unfold with_image. rewrite Ht. simpl spread.
  unfold get_opt. by rewrite assoc_set_eq.
Qed.

Lemma own_icon_object perk :
  truthy (own_icon perk) = true → ∃ fields, perk = VObj fields.
Proof. destruct perk; try done. eauto. Qed.

(** X11. A shrine perk that has a truthy [icon], [iconUrl] or
    [iconPath] ends up, after merge and enrichment, with the first of
    these as its [image]: the catalog's image is not used for it. *)
Theorem own_icon_beats_catalog byId perk merged :
  merge_perk byId perk = Ok merged →
  truthy (own_icon perk) = true →
  get_opt (with_image merged) "image" = own_icon perk.
Proof.
  intros Hm Hown. destruct (own_icon_object perk Hown) as [pf ->].
  assert (∃ mf, merged = VObj mf ∧ own_icon (VObj mf) = own_icon (VObj pf))
    as (mf & -> & Hsame).
  { revert Hm. unfold merge_perk. simpl.
    destruct (normalized_key _) as [key|]; simpl; [|done].
    destruct (negb _ && negb _); [intros [= <-]; eauto|].
    destruct (normalizeImageUrl _) as [image|]; simpl; [|done].
    intros [= <-]. eexists. split; [reflexivity|].
    unfold own_icon. simpl. by rewrite !assoc_set_ne. }
  rewrite <- Hsame in *. rewrite with_image_image.
  - by apply extractImage_own_icon.
  - by rewrite extractImage_own_icon.
Qed.

Lemma own_icon_beats_catalog_witness :
  let entry := VObj [("id", VStr "p1"); ("icon", VStr "catalog.png")] in
  let perk := VObj [("id", VStr "P1"); ("iconPath", VStr "/own.png")] in
  ∃ merged,
    merge_perk (<["p1" := entry]> ∅) perk = Ok merged
    ∧ get_opt merged "image" = VStr "https://dbd.tricky.lol/catalog.png"
    ∧ get_opt (with_image merged) "image" = VStr "/own.png".
Proof.
  intros entry perk. eexists. split; [reflexivity|]. split; [reflexivity|].
  apply (own_icon_beats_catalog (<["p1" := entry]> ∅) perk); reflexivity.
Defined.

(** X12. A shrine perk without such an icon whose catalog entry has an
    image ends up with the catalog's image, normalized, as its [image],
    whatever [image] it came with. *)
Theorem catalog_image_used byId fields key found image :
  let perk := VObj fields in
  normalized_key (get_opt perk "id") = Ok key →
  byId !! key = Some found → truthy found = true →
  normalizeImageUrl (extractImage found) = Ok image → truthy image = true →
  truthy (own_icon perk) = false →
  ∃ merged,
    merge_perk byId perk = Ok merged
    ∧ get_opt (with_image merged) "image" = image.
Proof.
  intros perk Hkey Hf Ht Hi Hti Hown.
  unfold merge_perk. subst perk. simpl get. simpl in Hkey. simpl bind.
  rewrite Hkey. simpl. rewrite Hf. simpl. rewrite Ht. simpl. rewrite Hi. simpl.
  eexists. split; [reflexivity|].
  rewrite (or_truthy_l image) by done.
  set (mf := set "image" image _).
  assert (Hown' : truthy (own_icon (VObj mf)) = false).
  { subst mf. unfold own_icon in *. simpl in *. by rewrite !assoc_set_ne. }
  assert (He : extractImage (VObj mf) = image).
  { apply extractImage_image; [done| |done]. subst mf. apply assoc_set_eq. }
  rewrite with_image_image; [done|by rewrite He].
Qed.

Lemma catalog_image_used_witness :
  let entry := VObj [("id", VStr "p1"); ("iconUrl", VStr "icons/p1.png")] in
  let perk := VObj [("id", VStr "P1"); ("image", VStr "/stale.png")] in
  ∃ merged,
    merge_perk (<["p1" := entry]> ∅) perk = Ok merged
    ∧ get_opt (with_image merged) "image" = VStr "https://dbd.tricky.lol/icons/p1.png".
Proof.
  intros entry perk.
  apply (catalog_image_used (<["p1" := entry]> ∅)
           [("id", VStr "P1"); ("image", VStr "/stale.png")] "p1" entry);
    reflexivity.
Defined.

End MergedPerks.

(** ** Plain enrichment, again *)

(** X13. For a payload whose perks are all readable (none is [null] or
    [undefined]), [enrichPayload] returns: [perksWithImages] has one
    element per perk, and [images] has, in perk order, exactly one record
    for each perk from which an image can be extracted, holding that
    image. *)
Theorem enrichPayload_readable_perks payload perks :
  get_opt payload "perks" = VArr perks →
  Forall (λ perk, perk ≠ VNull ∧ perk ≠ VUndef) perks →
  ∃ perksWithImages images,
    enrichPayload payload = Ok (perksWithImages, images)
    ∧ length perksWithImages = length perks
    ∧ length images = length (List.filter has_extractable_image perks)
    ∧ Forall2 (λ perk r, ∃ name, r = VObj [("name", name);
                                           ("image", extractImage perk)])
        (List.filter has_extractable_image perks) images
    ∧ Forall (λ r, truthy (get_opt r "image") = true) images.
Proof.
  intros Hp Hall.
  destruct (enrichPayload_images payload perks Hp Hall) as (images & He & Hrec & Himg).
  exists (map with_image perks), images. split; [done|].
  split; [by rewrite length_map|]. split; [|done].
  symmetry. by eapply Forall2_length.
Qed.

Lemma enrichPayload_readable_perks_witness :
  ∃ perksWithImages images,
    enrichPayload
      (VObj [("perks", VArr [VObj [("id", VStr "a")]; VStr "stray";
                             VObj [("name", VStr "B"); ("perkIcon", VStr "b.png")]])])
    = Ok (perksWithImages, images)
    ∧ length perksWithImages = 3%nat
    ∧ images = [VObj [("name", VStr "B"); ("image", VStr "b.png")]].
Proof.
  destruct (enrichPayload_readable_perks
              (VObj [("perks", VArr [VObj [("id", VStr "a")]; VStr "stray";
                                     VObj [("name", VStr "B"); ("perkIcon", VStr "b.png")]])])
              [VObj [("id", VStr "a")]; VStr "stray";
               VObj [("name", VStr "B"); ("perkIcon", VStr "b.png")]]
              eq_refl)
    as (pw & images & He & Hlen & _).
  { by repeat constructor. }
  exists pw, images. split; [done|]. split; [done|].
  vm_compute in He. by injection He as _ <-.
Defined.

(** ** Requests, snapshots and routes *)

Section Server.

Context {W : Type}.
Variable fetch : string → W → fetch_outcome * W.
Variable Date_now : W → Z.
Variable SOURCES : list string.

Implicit Types (st : state W) (url : string) (urls errors : list string).

Local Abbreviation do_fetch := (do_fetch fetch).
Local Abbreviation try_sources := (try_sources fetch).
Local Abbreviation candidates := (candidates SOURCES).
Local Abbreviation fetchFromSources := (fetchFromSources fetch SOURCES).
Local Abbreviation fetchPerkCatalog := (fetchPerkCatalog fetch).
Local Abbreviation loadShrine := (loadShrine fetch Date_now SOURCES).
Local Abbreviation cache_hit := (cache_hit Date_now).
Local Abbreviation snapshot := (snapshot SOURCES).
Local Abbreviation shrine_route := (shrine_route fetch Date_now SOURCES).
Local Abbreviation health_route := (health_route Date_now).
Local Abbreviation background_refresh := (background_refresh fetch Date_now SOURCES).
Local Abbreviation step := (step fetch Date_now SOURCES).
Local Abbreviation reachable := (reachable fetch Date_now SOURCES).
Local Abbreviation stored_snapshot := (stored_snapshot SOURCES).

(** The loop requests the URLs in order and stops at the first that
    answers with a payload. *)
Lemma try_sources_requests {A} label (finish : string → value → A)
    urls errors st r st' :
  try_sources label finish urls errors st = (r, st') →
  ∃ n, requests st' = requests st ++ take n urls
    ∧ match r with
      | Ok a => ∃ i url payload,
          n = S i ∧ urls !! i = Some url ∧ a = finish url payload
      | Throw _ => n = length urls
      end.
Proof.
  revert errors st. induction urls as [|u rest IH]; intros errors st; simpl.
  - intros [= <- <-]. exists 0%nat. by rewrite app_nil_r.
  - destruct (do_fetch u st) as [o st1] eqn:Ef.
    destruct (do_fetch_frame _ _ _ _ _ Ef) as (_ & _ & Hr).
    assert (Hgo : ∀ errors', try_sources label finish rest errors' st1 = (r, st') →
      ∃ n, requests st' = requests st ++ take n (u :: rest)
        ∧ match r with
          | Ok a => ∃ i url payload,
              n = S i ∧ (u :: rest) !! i = Some url ∧ a = finish url payload
          | Throw _ => n = length (u :: rest)
          end).
    { intros errors' (n & Hn & Hres)%IH. exists (S n). split.
      - by rewrite Hn, Hr, <- app_assoc.
      - destruct r as [a|e]; [|by rewrite Hres].
        destruct Hres as (i & url & payload & -> & Hi & ->).
        by exists (S i), url, payload. }
    destruct o as [message|status [payload|message]];
      [by apply Hgo|destruct (ok status); simpl..]; try by apply Hgo.
    intros [= <- <-]. exists 1%nat. split; [done|]. by exists 0%nat, u, payload.
Qed.

(** X14. [fetchFromSources] requests the candidates in their order and
    nothing else: up to and including the one it returns, which therefore
    is a candidate, or all of them when it throws. *)
Theorem fetchFromSources_requests st :
  match fetchFromSources st with
  | (Ok (url, _), st') =>
      ∃ i, candidates !! i = Some url
        ∧ requests st' = requests st ++ take (S i) candidates
  | (Throw _, st') => requests st' = requests st ++ candidates
  end.
Proof.
  destruct (fetchFromSources st) as [r st'] eqn:E.
  apply try_sources_requests in E as (n & Hn & Hr).
  destruct r as [[url payload]|e].
  - destruct Hr as (i & url' & payload' & -> & Hi & [= -> ->]). eauto.
  - by rewrite Hn, Hr, firstn_all.
Qed.

(** A load that goes to the network and succeeds: what it stores. *)
Lemma loadShrine_miss_ok force st data st' :
  cache_hit force st = false → loadShrine force st = (Ok data, st') →
  ∃ url payload st1 st2 perksWithImages images,
    fetchFromSources st = (Ok (url, payload), st1)
    ∧ url ∈ candidates
    ∧ data = snapshot (toISOString (Date_now (world st2))) url payload
               perksWithImages images
    ∧ st' = mkState data (Date_now (world st)) (world st2) (requests st2).
Proof.
  intros Eh. rewrite loadShrine_miss by done.
  destruct (fetchFromSources st) as [[[url payload]|e] st1] eqn:E1; [|done].
  assert (Hin : url ∈ candidates).
  { apply try_sources_requests in E1 as (n & _ & i & url' & ? & _ & Hi & [= -> _]).
    apply list_elem_of_lookup. eauto. }
  destruct (fetchPerkCatalog st1) as [[catalog|e1] st2];
    [destruct (enrich_with_catalog payload catalog) as [[pw imgs]|?]|];
    try destruct (enrichPayload payload) as [[pw imgs]|?]; try done;
    intros [= <- <-]; by exists url, payload, st1, st2, pw, imgs.
Qed.

(** X15. A call that returns has stored what it returns; when it went
    to the network, [lastFetch] is the clock reading taken at its start and
    the snapshot names as [sourceUsed] one of the URLs listed in its
    [sourceTried], with the payload of that source as [data]. A call that
    throws leaves [cache] and [lastFetch] alone. *)
Theorem loadShrine_postcondition force st :
  match loadShrine force st with
  | (Ok data, st') =>
      cache st' = data ∧ truthy data = true
      ∧ (cache_hit force st = false →
         lastFetch st' = Date_now (world st)
         ∧ ∃ url payload st1,
             fetchFromSources st = (Ok (url, payload), st1)
             ∧ get_opt data "sourceUsed" = VStr url
             ∧ get_opt data "data" = payload
             ∧ get_opt data "sourceTried" = VArr (map VStr candidates)
             ∧ VStr url ∈ map VStr candidates)
  | (Throw _, st') => cache st' = cache st ∧ lastFetch st' = lastFetch st
  end.
Proof.
  destruct (loadShrine force st) as [[data|e] st'] eqn:E.
  2: { by eapply loadShrine_throw_keeps_cache. }
  destruct (cache_hit force st) eqn:Eh.
  - rewrite loadShrine_hit in E by done. injection E as <- <-.
    split; [done|]. split; [|done]. unfold cache_hit in Eh.
    by apply andb_true_iff in Eh as [[_ ?]%andb_true_iff _].
  - destruct (loadShrine_miss_ok force st data st' Eh E)
      as (url & payload & st1 & st2 & pw & imgs & Hf & Hin & -> & ->).
    split; [done|]. split; [done|]. intros _. split; [done|].
    exists url, payload, st1. repeat split; try done.
    by apply list_elem_of_fmap_2.
Qed.

(** X16. After a load that went to the network and succeeded, a call
    without [force] made while the clock shows less than [CACHE_TIME] more
    than at the start of that load returns the same snapshot and requests
    nothing. *)
Theorem loadShrine_then_read force st data st1 w :
  cache_hit force st = false → loadShrine force st = (Ok data, st1) →
  Date_now w - Date_now (world st) < CACHE_TIME →
  let later := mkState (cache st1) (lastFetch st1) w (requests st1) in
  loadShrine false later = (Ok data, later).
Proof.
  intros Eh El Ht later.
  destruct (loadShrine_miss_ok force st data st1 Eh El)
    as (url & payload & st0 & st2 & pw & imgs & _ & _ & -> & ->).
  apply loadShrine_hit. unfold cache_hit. simpl. by apply Z.ltb_lt.
Qed.

(** X17. A call requests, in this order, an initial stretch of the
    candidates and then at most the catalog: nothing at all when it
    answers from the cache, at least the first candidate otherwise, and
    never more than one request per candidate plus one. *)
Theorem loadShrine_requests force st :
  let st' := snd (loadShrine force st) in
  ∃ n c,
    requests st' = requests st ++ take n candidates ++ c
    ∧ (c = [] ∨ c = PERK_CATALOG_SOURCES)
    ∧ (n ≤ length candidates)%nat
    ∧ (if cache_hit force st then n = 0%nat ∧ c = [] else (1 ≤ n)%nat).
Proof.
  intros st'. subst st'. destruct (cache_hit force st) eqn:Eh.
  { rewrite loadShrine_hit by done. exists 0%nat, []. simpl.
    rewrite app_nil_r. repeat split; [by left|lia]. }
  rewrite loadShrine_miss by done.
  destruct candidates_nonempty with (SOURCES := SOURCES) as (u & rest & Hc).
  destruct (fetchFromSources st) as [r1 st1] eqn:E1.
  pose proof E1 as (n & Hn & Hr1)%try_sources_requests.
  assert (Hb : (1 ≤ n ≤ length candidates)%nat).
  { destruct r1 as [[url payload]|e].
    - destruct Hr1 as (i & ? & ? & -> & Hi%lookup_lt_Some & _). lia.
    - rewrite Hr1, Hc. simpl. lia. }
  destruct r1 as [[url payload]|e]; simpl.
  2: { exists n, []. rewrite app_nil_r. repeat split; [done|by left|lia..]. }
  destruct (fetchPerkCatalog st1) as [r2 st2] eqn:E2.
  pose proof E2 as (m & Hm & Hr2)%try_sources_requests.
  assert (Hcat : take m PERK_CATALOG_SOURCES = PERK_CATALOG_SOURCES).
  { destruct r2 as [catalog|e2].
    - destruct Hr2 as ([|i] & ? & ? & -> & Hi & _); [done|]. by destruct i.
    - by rewrite Hr2. }
  rewrite Hcat in Hm.
  assert (Hfinal : requests st2 = requests st ++ take n candidates ++ PERK_CATALOG_SOURCES).
  { by rewrite Hm, Hn, <- app_assoc. }
  destruct r2 as [catalog|e2];
    [destruct (enrich_with_catalog payload catalog) as [[pw imgs]|?]|];
    try destruct (enrichPayload payload) as [[pw imgs]|?]; simpl;
    exists n, PERK_CATALOG_SOURCES; repeat split; try done; try (by right); lia.
Qed.

Lemma shrine_route_state st : snd (shrine_route st) = snd (loadShrine false st).
Proof.
  unfold shrine_route. destruct (loadShrine false st) as [[data|e] st']; [done|].
  by destruct (negb _).
Qed.

(** What a call leaves in [cache]: what was there, or what it returns. *)
Lemma loadShrine_cache force st :
  match loadShrine force st with
  | (Ok data, st') => cache st' = data ∧ truthy data = true
                      ∧ (cache_hit force st = true → st' = st)
  | (Throw _, st') => cache st' = cache st ∧ lastFetch st' = lastFetch st
  end.
Proof.
  destruct (loadShrine force st) as [[data|e] st'] eqn:E.
  2: { by eapply loadShrine_throw_keeps_cache. }
  destruct (cache_hit force st) eqn:Eh.
  - rewrite loadShrine_hit in E by done. injection E as <- <-.
    split; [done|]. split; [|done]. unfold cache_hit in Eh.
    by apply andb_true_iff in Eh as [[_ ?]%andb_true_iff _].
  - destruct (loadShrine_miss_ok force st data st' Eh E)
      as (url & payload & st1 & st2 & pw & imgs & _ & _ & -> & ->).
    done.
Qed.

(** X18. A request to [/shrine] is answered in one of three ways: with
    status 200 and the snapshot that is in the cache afterwards; with
    status 200 and the fallback object carrying an [error], only when the
    cache was and stays empty; or with status 500 and an [error] alone,
    only when a snapshot was cached, which is kept but not sent. *)
Theorem shrine_route_answers st :
  let res := fst (shrine_route st) in
  let st' := snd (shrine_route st) in
  (statusCode res = 200 ∧ sent res = cache st' ∧ truthy (cache st') = true)
  ∨ (statusCode res = 200
     ∧ sent res = VObj [("source", VStr "fallback"); ("lastUpdated", VNull);
                        ("perks", VArr []); ("error", VStr "Upstream fetch failed")]
     ∧ truthy (cache st) = false ∧ cache st' = cache st)
  ∨ (statusCode res = 500
     ∧ sent res = VObj [("error", VStr "Could not fetch shrine data")]
     ∧ truthy (cache st) = true ∧ cache st' = cache st).
Proof.
  intros res st'. subst res st'. unfold shrine_route.
  pose proof (loadShrine_cache false st) as H.
  destruct (loadShrine false st) as [[data|e] st1].
  - destruct H as (<- & Ht & _). by left.
  - destruct H as [Hc Hl]. rewrite Hc.
    destruct (truthy (cache st)) eqn:Et; simpl; [right; right|right; left]; done.
Qed.

(** X19. With an empty cache and every shrine source failing, [/shrine]
    answers 200 with the fallback object and an [error], the cache stays
    empty, and [/health] then reports no cache. *)
Theorem cold_outage_fallback st e st1 :
  truthy (cache st) = false →
  fetchFromSources st = (Throw e, st1) →
  shrine_route st
  = (mkResponse 200
       (VObj [("source", VStr "fallback"); ("lastUpdated", VNull);
              ("perks", VArr []); ("error", VStr "Upstream fetch failed")]), st1)
  ∧ health_route st1
    = mkResponse 200
        (VObj [("status", VStr "ok"); ("cacheAgeMs", VNull);
               ("cached", VBool false); ("source", VStr "none")]).
Proof.
  intros Hc Hf.
  assert (Eh : cache_hit false st = false).
  { unfold cache_hit. by rewrite Hc. }
  pose proof Hf as (Hc1 & _)%try_sources_frame.
  unfold shrine_route, health_route. rewrite loadShrine_miss, Hf by done.
  by rewrite Hc1, Hc.
Qed.

(** X20. With a snapshot in the cache that is [CACHE_TIME] old or
    older and every shrine source failing, [/shrine] answers 500 without
    the snapshot, although the snapshot stays cached and [/health] goes on
    reporting it. *)
Theorem stale_outage_error st e st1 :
  truthy (cache st) = true →
  CACHE_TIME ≤ Date_now (world st) - lastFetch st →
  fetchFromSources st = (Throw e, st1) →
  shrine_route st
  = (mkResponse 500 (VObj [("error", VStr "Could not fetch shrine data")]), st1)
  ∧ cache st1 = cache st
  ∧ get_opt (sent (health_route st1)) "cached" = VBool true.
Proof.
  intros Hc Ht Hf.
  assert (Eh : cache_hit false st = false).
  { unfold cache_hit. rewrite Hc. simpl. by apply Z.ltb_ge. }
  pose proof Hf as (Hc1 & _)%try_sources_frame.
  unfold shrine_route, health_route. rewrite loadShrine_miss, Hf by done.
  by rewrite Hc1, Hc.
Qed.

Lemma loadShrine_stored force st :
  (cache st = VNull ∧ lastFetch st = 0) ∨ stored_snapshot (cache st) →
  let st' := snd (loadShrine force st) in
  (cache st' = VNull ∧ lastFetch st' = 0) ∨ stored_snapshot (cache st').
Proof.
  intros Hinv st'. subst st'.
  destruct (loadShrine force st) as [[data|e] st'] eqn:E; simpl.
  2: { apply loadShrine_throw_keeps_cache in E as [-> ->]. done. }
  destruct (cache_hit force st) eqn:Eh.
  - rewrite loadShrine_hit in E by done. by injection E as <- <-.
  - destruct (loadShrine_miss_ok force st data st' Eh E)
      as (url & payload & st1 & st2 & pw & imgs & _ & Hin & -> & ->).
    right. simpl. by eexists _, url, payload, pw, imgs.
Qed.

(** X21. In every state the process can reach, the cache is either
    still empty, with [lastFetch] at its initial 0, or holds a snapshot
    built by [loadShrine], whose [sourceUsed] is one of the candidates. *)
Theorem reachable_cache st :
  reachable st →
  (cache st = VNull ∧ lastFetch st = 0) ∨ stored_snapshot (cache st).
Proof.
  induction 1 as [w|st st' _ IH Hstep]; [by left|].
  destruct Hstep as [st|st|st w]; simpl; [| |done].
  - rewrite shrine_route_state. by apply loadShrine_stored.
  - by apply loadShrine_stored.
Qed.

(** X22. Nothing empties the cache: after any step a cache that held a
    snapshot still holds one. *)
Theorem cache_stays_warm st st' :
  step st st' → truthy (cache st) = true → truthy (cache st') = true.
Proof.
  assert (Hload : ∀ force st0, truthy (cache st0) = true →
                    truthy (cache (snd (loadShrine force st0))) = true).
  { intros force st0 Ht. pose proof (loadShrine_cache force st0) as H.
    destruct (loadShrine force st0) as [[data|e] st1]; simpl.
    - by destruct H as (-> & ? & _).
    - destruct H as [-> _]. done. }
  intros [st0|st0|st0 w] Ht; simpl; [| |done].
  - rewrite shrine_route_state. by apply Hload.
  - by apply Hload.
Qed.

End Server.

(** ** Concrete runs of the server *)

Section ServerRuns.

Import Scenario.

Lemma loadShrine_then_read_witness :
  loadShrine (fetch degraded) Date_now [] false (at_time (t0 + 1000) warm)
  = (Ok (cache warm), at_time (t0 + 1000) warm).
Proof.
  apply (loadShrine_then_read (fetch degraded) Date_now [] true (cold t0)
           (cache warm) warm (t0 + 1000)).
  - reflexivity.
  - vm_compute. reflexivity.
  - vm_compute. reflexivity.
Defined.

Lemma cold_outage_fallback_witness :
  statusCode (fst (shrine_route (fetch outage) Date_now [] (cold t0))) = 200
  ∧ get_opt (sent (fst (shrine_route (fetch outage) Date_now [] (cold t0)))) "error"
    = VStr "Upstream fetch failed".
Proof.
  edestruct (cold_outage_fallback (fetch outage) Date_now [] (cold t0)) as [H _];
    [reflexivity | vm_compute; reflexivity |].
  rewrite H. split; reflexivity.
Defined.

Lemma stale_outage_error_witness :
  statusCode (fst (shrine_route (fetch outage) Date_now []
                     (at_time (t0 + CACHE_TIME) warm))) = 500
  ∧ cache (snd (shrine_route (fetch outage) Date_now []
                  (at_time (t0 + CACHE_TIME) warm))) = cache warm.
Proof.
  edestruct (stale_outage_error (fetch outage) Date_now []
               (at_time (t0 + CACHE_TIME) warm)) as (H & Hc & _);
    [reflexivity | vm_compute; discriminate | vm_compute; reflexivity |].
  rewrite H. split; [reflexivity|exact Hc].
Defined.

Lemma warm_reachable : reachable (fetch degraded) Date_now [] warm.
Proof.
  apply (reachable_step _ _ _ (cold t0)); [apply reachable_init|].
  apply (step_refresh (fetch degraded) Date_now [] (cold t0)).
Qed.

Lemma reachable_cache_witness :
  stored_snapshot [] (cache warm).
Proof.
  destruct (reachable_cache (fetch degraded) Date_now [] warm warm_reachable)
    as [[H _]|H]; [|exact H].
  vm_compute in H. discriminate H.
Defined.

Lemma cache_stays_warm_witness :
  truthy (cache (snd (shrine_route (fetch outage) Date_now []
                        (at_time (t0 + CACHE_TIME) warm)))) = true.
Proof.
  apply (cache_stays_warm (fetch outage) Date_now []
           (at_time (t0 + CACHE_TIME) warm)).
  - apply step_shrine.
  - reflexivity.
Defined.

End ServerRuns.
